(** * Laminar devtools panel: scanner, selection and tree rendering

    A shallow embedding of the [laminar-devtools] custom element
    (class [LaminarDevtools]): the DOM scan for elements carrying the
    [data-source-path] attribute, the reconstruction of their containment
    forest ([buildTree] / [findParentNode]), the selection highlight
    ([selectNode] / [clearHighlights]) and the tree part of the template
    ([renderTreeNode]).

    The browser is modelled as follows.
    - The document is a rose tree of elements rooted at the [html] element.
      An element reference is the path of child indices leading to it,
      written leaf first: [[]] is the [html] element and [i :: p] is the
      child number [i] of the element [p]. Reference identity ([===]) of
      elements is equality of paths; [parentElement] drops the head.
    - [ComponentNode] objects live in a store (a list, the address of an
      object being its position). Arrays of nodes are lists of addresses,
      so that [push] on [parent.children] and the assignment to
      [node.depth] are seen through every alias, and [===] on nodes is
      equality of addresses. *)

From stdpp Require Import base option list strings.
From Stdlib Require Import Ascii.

(** ** Strings *)

Module Str.

(** [String.prototype.toLowerCase] on the ASCII range. *)
Definition lower_ascii (c : ascii) : ascii :=
  let n := nat_of_ascii c in
  if (65 <=? n) && (n <=? 90) then ascii_of_nat (n + 32) else c.

Fixpoint toLowerCase (s : string) : string :=
  match s with
  | EmptyString => EmptyString
  | String c s' => String (lower_ascii c) (toLowerCase s')
  end.

(** [String.prototype.repeat]. *)
Fixpoint repeat (s : string) (n : nat) : string :=
  match n with
  | O => EmptyString
  | S n' => s +:+ repeat s n'
  end.

Fixpoint starts_with (needle hay : string) : bool :=
  match needle, hay with
  | EmptyString, _ => true
  | String a n', String b h' => if ascii_dec a b then starts_with n' h' else false
  | String _ _, EmptyString => false
  end.

(** Substring test, as used by the attribute selector [[attr*="..."]]. *)
Fixpoint includes (needle hay : string) : bool :=
  starts_with needle hay ||
  match hay with
  | EmptyString => false
  | String _ h' => includes needle h'
  end.

End Str.

(** ** The DOM *)

Abbreviation Attrs := (list (string * string)).

(** An inline style: the declarations of the element's [style] attribute,
    in order, as (property, value) pairs. *)
Abbreviation Style := (list (string * string)).

#[warnings="-register-all"] Inductive Element : Type :=
  El (el_tagName : string) (el_attrs : Attrs) (el_style : Style)
     (el_children : list Element).

Definition el_tagName (e : Element) : string := let 'El t _ _ _ := e in t.
Definition el_attrs (e : Element) : Attrs := let 'El _ a _ _ := e in a.
Definition el_style (e : Element) : Style := let 'El _ _ s _ := e in s.
Definition el_children (e : Element) : list Element := let 'El _ _ _ ks := e in ks.

(** Element references: child indices from the [html] element, leaf first. *)
Abbreviation ERef := (list nat).

(** The document: the [html] element's own data, and its children split
    around [document.body]. *)
Record Document := mkDocument {
  html_attrs : Attrs;
  html_style : Style;
  before_body : list Element;
  body : Element;
  after_body : list Element
}.

Definition documentElement (d : Document) : Element :=
  El "HTML" (html_attrs d) (html_style d)
     (before_body d ++ body d :: after_body d).

(** The reference of [document.body]. *)
Definition bodyRef (d : Document) : ERef := [length (before_body d)].

(** Resolution of a reference below a given element. *)
Fixpoint lookup_el (root : Element) (p : ERef) : option Element :=
  match p with
  | [] => Some root
  | i :: up => lookup_el root up ≫= λ e, el_children e !! i
  end.

Definition doc_lookup (d : Document) (p : ERef) : option Element :=
  lookup_el (documentElement d) p.

(** [element.parentElement]: [None] is [null] (the parent of [html] is the
    document, which is not an element). *)
Definition parentElement (p : ERef) : option ERef :=
  match p with
  | [] => None
  | _ :: up => Some up
  end.

Fixpoint attr_lookup (name : string) (a : Attrs) : option string :=
  match a with
  | [] => None
  | (n, v) :: a' => if decide (n = name) then Some v else attr_lookup name a'
  end.

Definition el_hasAttribute (name : string) (e : Element) : bool :=
  bool_decide (is_Some (attr_lookup name (el_attrs e))).

Definition getAttribute (d : Document) (p : ERef) (name : string) : option string :=
  doc_lookup d p ≫= λ e, attr_lookup name (el_attrs e).

Definition tagNameOf (d : Document) (p : ERef) : string :=
  from_option el_tagName "" (doc_lookup d p).

(** Concatenation of [f i x] over a list, [i] counting positions from a
    given start: the children of an element, with their indices. *)
Section flat_from.
Context {A B : Type} (f : nat → A → list B).

Fixpoint flat_from (i : nat) (l : list A) : list B :=
  match l with
  | [] => []
  | x :: l' => f i x ++ flat_from (S i) l'
  end.
End flat_from.

Section map_from.
Context {A B : Type} (f : nat → A → B).

Fixpoint map_from (i : nat) (l : list A) : list B :=
  match l with
  | [] => []
  | x :: l' => f i x :: map_from (S i) l'
  end.
End map_from.

(** ** Inline styles *)

(** The inline style of an element is its declaration block, and the text
    of its [style] attribute is taken to be the serialisation of that block,
    as it is after any assignment through [element.style]. *)
Module Css.

(** The longhands reset together with the [outline] shorthand. *)
Definition outline_family : list string :=
  ["outline"; "outline-color"; "outline-style"; "outline-width"].

Definition getPropertyValue (name : string) (s : Style) : string :=
  from_option id "" (attr_lookup name s).

Definition removeProperties (names : list string) (s : Style) : Style :=
  filter (λ nv, nv.1 ∉ names) s.

(** [style.outline = v]: the empty string removes the shorthand with its
    longhands, another value replaces them by the shorthand. *)
Definition set_outline (v : string) (s : Style) : Style :=
  let s' := removeProperties outline_family s in
  if decide (v = "") then s' else s' ++ [("outline", v)].

(** [style.outlineOffset = v]. *)
Definition set_outlineOffset (v : string) (s : Style) : Style :=
  let s' := removeProperties ["outline-offset"] s in
  if decide (v = "") then s' else s' ++ [("outline-offset", v)].

(** The text of the [style] attribute: the serialised declarations. *)
Fixpoint cssText (s : Style) : string :=
  match s with
  | [] => ""
  | (n, v) :: s' => n +:+ ": " +:+ v +:+ "; " +:+ cssText s'
  end.

(** The selector [[style*="outline"]] on one element. *)
Definition matches_style_outline (s : Style) : bool :=
  Str.includes "outline" (cssText s).

(** What [clearHighlights] does to the style of a selected element. *)
Definition cleared (s : Style) : Style :=
  set_outlineOffset "" (set_outline "" s).

(** What [selectNode] does to the style of the node's element. *)
Definition highlighted (s : Style) : Style :=
  set_outlineOffset "2px" (set_outline "2px solid #007acc" s).

End Css.

(** A map over the inline styles of a subtree, each element seen with its
    reference. *)
Fixpoint map_styles (f : ERef → Style → Style) (p : ERef) (e : Element) : Element :=
  El (el_tagName e) (el_attrs e) (f p (el_style e))
     (map_from (λ i k, map_styles f (i :: p) k) 0 (el_children e)).

Definition doc_map_styles (f : ERef → Style → Style) (d : Document) : Document :=
  let b := length (before_body d) in
  {| html_attrs := html_attrs d;
     html_style := f [] (html_style d);
     before_body := map_from (λ i k, map_styles f [i] k) 0 (before_body d);
     body := map_styles f [b] (body d);
     after_body := map_from (λ i k, map_styles f [i] k) (S b) (after_body d) |}.

(** All elements of a subtree in document order, with their references. *)
Fixpoint elements_of (p : ERef) (e : Element) : list (ERef * Element) :=
  (p, e) :: flat_from (λ i k, elements_of (i :: p) k) 0 (el_children e).

Definition style_at (d : Document) (p : ERef) : option Style :=
  el_style <$> doc_lookup d p.

(** ** The scanner *)

Definition marker : string := "data-source-path".

(** The tree walker's filter: [hasAttribute('data-source-path')]. *)
Definition marked (e : Element) : bool := el_hasAttribute marker e.

(** The accepted elements of a subtree in document order. A skipped
    element ([FILTER_SKIP]) is left out but its children are still
    visited. *)
Fixpoint accepted (p : ERef) (e : Element) : list ERef :=
  (if marked e then [p] else []) ++
  flat_from (λ i k, accepted (i :: p) k) 0 (el_children e).

(** The successive results of [walker.nextNode()]: the walker starts on
    [root] and moves forward, so [root] itself is never returned. *)
Definition findElementsWithSourcePath (d : Document) (root : ERef) : list ERef :=
  match doc_lookup d root with
  | Some e => flat_from (λ i k, accepted (i :: root) k) 0 (el_children e)
  | None => []
  end.

Record ComponentNode := mkComponentNode {
  element : ERef;
  sourcePath : string;
  tagName : string;
  children : list nat;
  depth : nat
}.

(** The store of [ComponentNode] objects; a node reference is an index. *)
Abbreviation Store := (list ComponentNode).

Definition newNode (d : Document) (el : ERef) : ComponentNode :=
  {| element := el;
     sourcePath := from_option id "" (getAttribute d el marker);
     tagName := Str.toLowerCase (tagNameOf d el);
     children := [];
     depth := 0 |}.

Definition push_child (c : nat) (n : ComponentNode) : ComponentNode :=
  {| element := element n; sourcePath := sourcePath n; tagName := tagName n;
     children := children n ++ [c]; depth := depth n |}.

Definition set_depth (k : nat) (n : ComponentNode) : ComponentNode :=
  {| element := element n; sourcePath := sourcePath n; tagName := tagName n;
     children := children n; depth := k |}.

(** The loop variable [parent] runs over [el.parentElement],
    [el.parentElement.parentElement], ... until [null]: with references
    written leaf first, [parentElement (i :: parent) = Some parent] and
    [parentElement [] = None]. *)
Fixpoint findParentNode (h : Store) (el : ERef) (nodes : list nat) : option nat :=
  match el with
  | [] => None
  | _ :: parent =>
      match list_find (λ a, element <$> h !! a = Some parent) nodes with
      | Some (_, parentNode) => Some parentNode
      | None => findParentNode h parent nodes
      end
  end.

(** First loop of [buildTree], one element: allocate the node and push it
    to [nodes]. *)
Definition allocNode (d : Document) (st : Store * list nat) (el : ERef)
  : Store * list nat :=
  let '(h, nodes) := st in (h ++ [newNode d el], nodes ++ [length h]).

(** Second loop of [buildTree], one node. *)
Definition linkNode (nodes : list nat) (st : Store * list nat) (a : nat)
  : Store * list nat :=
  let '(h, rootNodes) := st in
  match h !! a with
  | None => st
  | Some node =>
      match findParentNode h (element node) nodes with
      | Some p =>
          let h1 := alter (push_child a) p h in
          let pd := from_option depth 0 (h1 !! p) in
          (alter (set_depth (pd + 1)) a h1, rootNodes)
      | None => (h, rootNodes ++ [a])
      end
  end.

Definition buildTree (d : Document) (h : Store) (elements : list ERef)
  : Store * list nat :=
  let '(h1, nodes) := fold_left (allocNode d) elements (h, []) in
  fold_left (linkNode nodes) nodes (h1, []).

(** ** The panel *)

Record Panel := mkPanel {
  dom : Document;
  store : Store;
  componentTree : list nat;
  selectedNode : option nat
}.

Definition scanComponentTree (s : Panel) : Panel :=
  let rootElements := findElementsWithSourcePath (dom s) (bodyRef (dom s)) in
  let '(h, rootNodes) := buildTree (dom s) (store s) rootElements in
  {| dom := dom s; store := h; componentTree := rootNodes;
     selectedNode := selectedNode s |}.

(** An assignment to a property of [el.style]. *)
Definition set_style (d : Document) (el : ERef) (f : Style → Style) : Document :=
  doc_map_styles (λ q s, if decide (q = el) then f s else s) d.

(** [document.querySelectorAll('[style*="outline"]')]: a static list, in
    document order. *)
Definition querySelectorAll_style_outline (d : Document) : list ERef :=
  (filter (λ pe, Css.matches_style_outline (el_style pe.2) = true)
          (elements_of [] (documentElement d))).*1.

Definition clearHighlights (d : Document) : Document :=
  fold_left
    (λ d' el, set_style (set_style d' el (Css.set_outline "")) el
                        (Css.set_outlineOffset ""))
    (querySelectorAll_style_outline d) d.

Definition selectNode (s : Panel) (a : nat) : Panel :=
  match store s !! a with
  | None => s
  | Some node =>
      let d1 := clearHighlights (dom s) in
      let d2 := set_style d1 (element node) (Css.set_outline "2px solid #007acc") in
      let d3 := set_style d2 (element node) (Css.set_outlineOffset "2px") in
      {| dom := d3; store := store s; componentTree := componentTree s;
         selectedNode := Some a |}
  end.

(** One [div.tree-node] of the template. *)
Record TreeLine := mkTreeLine {
  line_selected : bool;
  line_indent : string;
  line_tagName : string;
  line_sourcePath : string;
  line_click : nat
}.

(** The recursion follows [node.children] through the store; [fuel] bounds
    its depth. *)
Fixpoint renderTreeNode (fuel : nat) (s : Panel) (a : nat) : option (list TreeLine) :=
  match fuel with
  | O => None
  | S fuel' =>
      node ← store s !! a;
      below ← mapM (renderTreeNode fuel' s) (children node);
      Some ({| line_selected := bool_decide (selectedNode s = Some a);
               line_indent := Str.repeat "  " (depth node);
               line_tagName := tagName node;
               line_sourcePath := sourcePath node;
               line_click := a |} :: concat below)
  end.

(** The [div.tree] part of [render]. *)
Definition renderTree (fuel : nat) (s : Panel) : option (list TreeLine) :=
  below ← mapM (renderTreeNode fuel s) (componentTree s); Some (concat below).

(** ** Reading a forest out of the store *)

#[warnings="-register-all"] Inductive NodeTree : Type :=
  NT (nt_addr : nat) (nt_element : ERef) (nt_sourcePath nt_tagName : string)
     (nt_depth : nat) (nt_children : list NodeTree).

Definition nt_addr (t : NodeTree) : nat := let 'NT a _ _ _ _ _ := t in a.
Definition nt_element (t : NodeTree) : ERef := let 'NT _ e _ _ _ _ := t in e.
Definition nt_sourcePath (t : NodeTree) : string := let 'NT _ _ sp _ _ _ := t in sp.
Definition nt_tagName (t : NodeTree) : string := let 'NT _ _ _ tn _ _ := t in tn.
Definition nt_depth (t : NodeTree) : nat := let 'NT _ _ _ _ d _ := t in d.
Definition nt_children (t : NodeTree) : list NodeTree := let 'NT _ _ _ _ _ ts := t in ts.

Fixpoint unfoldNode (fuel : nat) (h : Store) (a : nat) : option NodeTree :=
  match fuel with
  | O => None
  | S fuel' =>
      node ← h !! a;
      ts ← mapM (unfoldNode fuel' h) (children node);
      Some (NT a (element node) (sourcePath node) (tagName node) (depth node) ts)
  end.

Definition unfoldForest (fuel : nat) (h : Store) (roots : list nat)
  : option (list NodeTree) :=
  mapM (unfoldNode fuel h) roots.

(** All nodes of a forest, parents before children. *)
Fixpoint nodes_of (t : NodeTree) : list NodeTree :=
  t :: flat_map nodes_of (nt_children t).

Definition forest_nodes (ts : list NodeTree) : list NodeTree :=
  flat_map nodes_of ts.

(** A forest without the identity of its node objects. *)
#[warnings="-register-all"] Inductive Shape : Type :=
  Sh (sh_element : ERef) (sh_sourcePath sh_tagName : string) (sh_depth : nat)
     (sh_children : list Shape).

Fixpoint shape_of (t : NodeTree) : Shape :=
  let 'NT _ e sp tn d ts := t in Sh e sp tn d (map shape_of ts).

(** ** Reference notions the properties are stated with *)

Definition accepted_below (p : ERef) (i : nat) (ks : list Element) : list ERef :=
  flat_from (λ j k, accepted (j :: p) k) i ks.

(** The strict ancestors of an element, nearest first. *)
Fixpoint ancestors (el : ERef) : list ERef :=
  match el with
  | [] => []
  | _ :: up => up :: ancestors up
  end.

(** The nearest strict ancestor of [el] that belongs to [L]. *)
Fixpoint parentIn (L : list ERef) (el : ERef) : option ERef :=
  match el with
  | [] => None
  | _ :: up => if decide (up ∈ L) then Some up else parentIn L up
  end.

Definition selfOrParentIn (L : list ERef) (p : ERef) : option ERef :=
  if decide (p ∈ L) then Some p else parentIn L p.

(** How many strict ancestors of [el] belong to [L]. *)
Definition ancestorsIn (L : list ERef) (el : ERef) : nat :=
  length (filter (λ z, z ∈ L) (ancestors el)).

(** How many strict ancestors of [el] carry the marker attribute, wherever
    they are in the document. *)
Definition marked_at (d : Document) (p : ERef) : bool :=
  from_option marked false (doc_lookup d p).

Definition markedAncestors (d : Document) (el : ERef) : nat :=
  length (filter (λ z, marked_at d z = true) (ancestors el)).

(** How many strict ancestors of [el] carry the marker attribute and lie
    strictly below [root]. *)
Definition markedAncestorsBelow (d : Document) (root el : ERef) : nat :=
  length (filter (λ z, marked_at d z = true ∧ root ∈ ancestors z) (ancestors el)).

(** [x] is the nearest strict ancestor of [y] among the elements of [L]. *)
Definition nearest_ancestor_in (L : list ERef) (y x : ERef) : Prop :=
  x ∈ L ∧ x ∈ ancestors y ∧
  ∀ z, z ∈ L → z ∈ ancestors y → z = x ∨ z ∈ ancestors x.

(** The position of an element in a list of elements. *)
Definition indexIn (L : list ERef) (y : ERef) : nat :=
  from_option fst 0 (list_find (λ x, x = y) L).

(** The topmost accepted elements of a subtree. *)
Fixpoint tops (q : ERef) (k : Element) : list ERef :=
  if marked k then [q]
  else flat_from (λ j c, tops (j :: q) c) 0 (el_children k).

Definition tops_below (p : ERef) (i : nat) (ks : list Element) : list ERef :=
  flat_from (λ j k, tops (j :: p) k) i ks.

(** The forest of the accepted elements of a subtree, by recursion on the
    DOM: [dp] is the number of accepted elements passed on the way down and
    [addr] names the node object of each element. *)
Fixpoint expected (addr : ERef → nat) (dp : nat) (q : ERef) (k : Element)
  : list NodeTree :=
  if marked k then
    [NT (addr q) q
        (from_option id "" (attr_lookup marker (el_attrs k)))
        (Str.toLowerCase (el_tagName k)) dp
        (flat_from (λ j c, expected addr (S dp) (j :: q) c) 0 (el_children k))]
  else flat_from (λ j c, expected addr dp (j :: q) c) 0 (el_children k).

Definition expected_below (addr : ERef → nat) (dp : nat) (p : ERef) (i : nat)
    (ks : list Element) : list NodeTree :=
  flat_from (λ j k, expected addr dp (j :: p) k) i ks.

(** The node object of an element of [L], for a store that held [base]
    objects when the scan began. *)
Definition addrIn (base : nat) (L : list ERef) (y : ERef) : nat :=
  base + indexIn L y.

(** The state of [buildTree]'s second loop after [k] iterations, in closed
    form. *)
Definition linkedNode (d : Document) (base : nat) (L : list ERef) (k : nat)
    (y : ERef) : ComponentNode :=
  {| element := y;
     sourcePath := from_option id "" (getAttribute d y marker);
     tagName := Str.toLowerCase (tagNameOf d y);
     children := map (addrIn base L) (filter (λ z, parentIn L z = Some y) (take k L));
     depth := if decide (y ∈ take k L) then ancestorsIn L y else 0 |}.

Definition linkedStore (d : Document) (h0 : Store) (L : list ERef) (k : nat) : Store :=
  h0 ++ map (linkedNode d (length h0) L k) L.

Definition linkedRoots (base : nat) (L : list ERef) (k : nat) : list nat :=
  map (addrIn base L) (filter (λ z, parentIn L z = None) (take k L)).

(** Document order: an accepted ancestor comes before its accepted
    descendants. *)
Definition ancestors_first (l : list ERef) : Prop :=
  ∀ x y, x ∈ l → y ∈ l → x ∈ ancestors y → [x; y] `sublist_of` l.

(** The accepted elements of the subtree of [k], which sits at [q], are
    exactly the members of [L] at or below [q]. *)
Definition covers (L : list ERef) (q : ERef) (k : Element) : Prop :=
  accepted q k `sublist_of` L ∧
  ∀ y, y ∈ L → q `suffix_of` y → y ∈ accepted q k.

Definition covers_below (L : list ERef) (q : ERef) (ks : list Element) : Prop :=
  accepted_below q 0 ks `sublist_of` L ∧
  ∀ y, y ∈ L → q ∈ ancestors y → y ∈ accepted_below q 0 ks.

(** The elements of [L] whose nearest ancestor in [L] is the one of [q]
    are the topmost accepted elements below [q]. *)
Definition tops_spec (L : list ERef) (c : Element) : Prop :=
  ∀ q, covers L q c →
    filter (λ y, parentIn L y = selfOrParentIn L q)
           (accepted_below q 0 (el_children c))
    = tops_below q 0 (el_children c).

(** Reading the linked store at the topmost accepted elements of a subtree
    gives the forest expected for that subtree. *)
Definition unfold_spec (d : Document) (h0 : Store) (L : list ERef)
    (c : Element) : Prop :=
  ∀ q fuel, covers L q c → doc_lookup d q = Some c →
    length (accepted q c) ≤ fuel →
    Forall2 (λ a t, unfoldNode fuel (linkedStore d h0 L (length L)) a = Some t)
            (map (addrIn (length h0) L) (tops q c))
            (expected (addrIn (length h0) L) (ancestorsIn L q) q c).

(** The node object [t] stands for the element [y] of the scanned list [L]. *)
Definition node_for (d : Document) (base : nat) (L : list ERef) (y : ERef)
    (t : NodeTree) : Prop :=
  nt_addr t = addrIn base L y ∧
  nt_element t = y ∧
  nt_sourcePath t = from_option id "" (getAttribute d y marker) ∧
  nt_tagName t = Str.toLowerCase (tagNameOf d y) ∧
  nt_depth t = ancestorsIn L y.

(** The line of the template for one node. *)
Definition line_of (sel : option nat) (t : NodeTree) : TreeLine :=
  {| line_selected := bool_decide (sel = Some (nt_addr t));
     line_indent := Str.repeat "  " (nt_depth t);
     line_tagName := nt_tagName t;
     line_sourcePath := nt_sourcePath t;
     line_click := nt_addr t |}.

(** The lines of a subtree: the node's own line, then its children's
    subtrees in the order of [children]. *)
Fixpoint lines_of (sel : option nat) (t : NodeTree) : list TreeLine :=
  line_of sel t :: flat_map (lines_of sel) (nt_children t).

(** The forest a scan of document [d] is expected to produce when the
    store holds [base] objects before the scan. *)
Definition expectedForest (d : Document) (base : nat) : list NodeTree :=
  let L := findElementsWithSourcePath d (bodyRef d) in
  expected_below (addrIn base L) 0 (bodyRef d) 0 (el_children (body d)).

(** The panel as first connected to a document. *)
Definition initialPanel (d : Document) : Panel :=
  {| dom := d; store := []; componentTree := []; selectedNode := None |}.

(** What can happen to a panel: a rescan (first connection, mutation
    observer, Refresh button), a click on a line of the rendered tree, and
    a change of the page by its own scripts. *)
Inductive step : Panel → Panel → Prop :=
  | step_scan s : step s (scanComponentTree s)
  | step_select s a :
      a < length (store s) → step s (selectNode s a)
  | step_host s d' :
      step s {| dom := d'; store := store s; componentTree := componentTree s;
                selectedNode := selectedNode s |}.

Inductive reachable : Panel → Prop :=
  | reachable_init d : reachable (scanComponentTree (initialPanel d))
  | reachable_step s s' : reachable s → step s s' → reachable s'.

(** ** Sample documents *)

Module Samples.

(** [<div data-source-path="A"><span data-source-path="B"><i><b
    data-source-path="C"></b></i></span></div>] in the body. *)
Definition doc_nested : Document :=
  {| html_attrs := []; html_style := [];
     before_body := [El "HEAD" [] [] []];
     body :=
       El "BODY" [] []
          [El "DIV" [(marker, "A")] []
              [El "SPAN" [(marker, "B")] []
                  [El "I" [] [] [El "B" [(marker, "C")] [] []]]]];
     after_body := [] |}.

(** A body that itself carries the marker attribute, with one marked
    child. *)
Definition doc_marked_body : Document :=
  {| html_attrs := []; html_style := [];
     before_body := [El "HEAD" [] [] []];
     body := El "BODY" [(marker, "app")] [] [El "DIV" [(marker, "A")] [] []];
     after_body := [] |}.

(** Two marked siblings, the first styled with an outline offset only. *)
Definition doc_offset : Document :=
  {| html_attrs := []; html_style := [];
     before_body := [El "HEAD" [] [] []];
     body :=
       El "BODY" [] []
          [El "DIV" [(marker, "A")] [("outline-offset", "4px")] [];
           El "DIV" [(marker, "B")] [("outline", "1px dotted red")] []];
     after_body := [] |}.

(** A page without any marked element. *)
Definition doc_plain : Document :=
  {| html_attrs := []; html_style := [];
     before_body := [El "HEAD" [] [] []];
     body := El "BODY" [] [] [El "P" [] [] []];
     after_body := [] |}.

End Samples.

(** ** The detail panel, the click handlers and the mutation observer *)

(** What [getBoundingClientRect] returns, over the coordinates of the
    platform. *)
Record DOMRect (Coord : Type) := mkDOMRect {
  rect_left : Coord;
  rect_top : Coord;
  rect_width : Coord;
  rect_height : Coord
}.
Arguments rect_left {Coord} _.
Arguments rect_top {Coord} _.
Arguments rect_width {Coord} _.
Arguments rect_height {Coord} _.

(** The [div.node-info] of the template. *)
Record NodeInfo := mkNodeInfo {
  info_tag : string;
  info_sourcePath : string;
  info_left : Z;
  info_top : Z;
  info_width : Z;
  info_height : Z;
  info_children : nat
}.

(** [renderSelectedNodeInfo]: [None] is the empty template. The layout
    ([getBoundingClientRect]) and [Math.round] belong to the platform. *)
Definition renderSelectedNodeInfo {Coord : Type}
    (getBoundingClientRect : Document → ERef → DOMRect Coord)
    (Math_round : Coord → Z) (s : Panel) : option NodeInfo :=
  match selectedNode s with
  | None => None
  | Some a =>
      node ← store s !! a;
      let rect := getBoundingClientRect (dom s) (element node) in
      Some {| info_tag := tagName node;
              info_sourcePath := sourcePath node;
              info_left := Math_round (rect_left rect);
              info_top := Math_round (rect_top rect);
              info_width := Math_round (rect_width rect);
              info_height := Math_round (rect_height rect);
              info_children := length (children node) |}
  end.

(** The [@click] handler of a rendered line: [() => this.selectNode(node)]. *)
Definition clickLine (s : Panel) (l : TreeLine) : Panel :=
  selectNode s (line_click l).

(** The [@click] handler of the Refresh button. *)
Definition clickRefresh (s : Panel) : Panel := scanComponentTree s.

(** Mutation records, for the mutations of elements. *)
Inductive MutationRecord : Type :=
  | MutChildList (target : ERef)
  | MutAttributes (target : ERef) (attributeName : string).

Record MutationObserverInit := mkMutationObserverInit {
  childList : bool;
  subtree : bool;
  attributes : bool;
  attributeFilter : option (list string)
}.

(** The options [connectedCallback] passes to [observer.observe]. *)
Definition observerOptions : MutationObserverInit :=
  {| childList := true; subtree := true; attributes := true;
     attributeFilter := Some [marker] |}.

(** Whether an observer registered on [root] with options [o] is handed
    the record [r]. *)
Definition interested (root : ERef) (o : MutationObserverInit)
    (r : MutationRecord) : bool :=
  let in_scope target :=
    bool_decide (target = root) ||
    (subtree o && bool_decide (root ∈ ancestors target)) in
  match r with
  | MutChildList target => in_scope target && childList o
  | MutAttributes target name =>
      (in_scope target && attributes o) &&
      (match attributeFilter o with
       | None => true
       | Some names => bool_decide (name ∈ names)
       end)
  end.

(** A batch of mutations reaches the observer of [connectedCallback],
    whose callback rescans; the callback runs only when it is handed at
    least one record. *)
Definition onMutations (s : Panel) (records : list MutationRecord) : Panel :=
  match filter (λ r, interested (bodyRef (dom s)) observerOptions r = true) records with
  | [] => s
  | _ :: _ => scanComponentTree s
  end.

(** The mutations [selectNode] itself makes: two assignments to the inline
    style of every element [clearHighlights] selects, then two to the style
    of the node's element. *)
Definition selectNode_records (s : Panel) (a : nat) : list MutationRecord :=
  match store s !! a with
  | None => []
  | Some node =>
      flat_map (λ el, [MutAttributes el "style"; MutAttributes el "style"])
               (querySelectorAll_style_outline (dom s))
      ++ [MutAttributes (element node) "style";
          MutAttributes (element node) "style"]
  end.

(** The declarations of a style that are neither the outline, one of its
    longhands, nor the outline offset. *)
Definition other_declarations (s : Style) : Style :=
  filter (λ nv, (nv.1 ∉ Css.outline_family) ∧ (nv.1 ∉ ["outline-offset"])) s.

(** What both loops of [buildTree] keep, whatever the list of elements:
    the store has its final length, the objects that were there before are
    untouched, the node of each element is in its place with the fields set
    at its creation, and children and roots are nodes of this call. *)
Definition allocInv (d : Document) (h0 : Store) (els : list ERef)
    (st : Store * list nat) : Prop :=
  let fresh c := length h0 ≤ c < length h0 + length els in
  length st.1 = length h0 + length els ∧
  (∀ a node, h0 !! a = Some node → st.1 !! a = Some node) ∧
  (∀ i el, els !! i = Some el →
     ∃ node, st.1 !! (length h0 + i) = Some node ∧
             element node = el ∧
             sourcePath node = from_option id "" (getAttribute d el marker) ∧
             tagName node = Str.toLowerCase (tagNameOf d el) ∧
             Forall fresh (children node)) ∧
  Forall fresh st.2.

(** The second loop after [k] iterations on a duplicate-free list, in any
    order: children and roots, whatever the depths. *)
Definition parentedInv (d : Document) (h0 : Store) (L : list ERef) (k : nat)
    (st : Store * list nat) : Prop :=
  length st.1 = length h0 + length L ∧
  (∀ i y, L !! i = Some y →
     ∃ node, st.1 !! (length h0 + i) = Some node ∧
             element node = y ∧
             children node
             = map (addrIn (length h0) L)
                   (filter (λ z, parentIn L z = Some y) (take k L))) ∧
  st.2 = map (addrIn (length h0) L) (filter (λ z, parentIn L z = None) (take k L)).

(** The children of a node of the forest stand for the elements of [L]
    whose nearest ancestor in [L] is the node's element, in the order of
    [L], one level deeper than the node. *)
Definition child_spec (L : list ERef) (t : NodeTree) : Prop :=
  map nt_element (nt_children t)
  = filter (λ y, parentIn L y = Some (nt_element t)) L ∧
  Forall (λ c, nt_depth c = S (nt_depth t)) (nt_children t).

(** Two documents with the same elements, tag names, attributes and
    nesting: they differ by inline styles at most. *)
Definition same_markup (d1 d2 : Document) : Prop :=
  bodyRef d1 = bodyRef d2 ∧
  (∀ p, el_tagName <$> doc_lookup d1 p = el_tagName <$> doc_lookup d2 p) ∧
  (∀ p, el_attrs <$> doc_lookup d1 p = el_attrs <$> doc_lookup d2 p) ∧
  (∀ root, findElementsWithSourcePath d1 root = findElementsWithSourcePath d2 root).

(** The node [t] of an unfolded forest shows the fields of the object at
    its address in the store [h]. *)
Definition reads (h : Store) (t : NodeTree) : Prop :=
  ∃ node, h !! nt_addr t = Some node ∧
          element node = nt_element t ∧
          sourcePath node = nt_sourcePath t ∧
          tagName node = nt_tagName t ∧
          depth node = nt_depth t ∧
          children node = map nt_addr (nt_children t).

(** A change of the marked set can only come from such a record: a child
    list change, or a change of the marker attribute, at the body or below
    it. *)
Definition markup_change (root : ERef) (r : MutationRecord) : Prop :=
  ∃ target,
    (r = MutChildList target ∨ r = MutAttributes target marker) ∧
    (target = root ∨ root ∈ ancestors target).

(** * Proofs *)

(** ** Lists with positions *)

Section flat_from_facts.
Context {A B : Type} (f : nat → A → list B).

Lemma flat_from_app i l1 l2 :
  flat_from f i (l1 ++ l2) = flat_from f i l1 ++ flat_from f (i + length l1) l2.
Proof.
  revert i. induction l1 as [|x l1 IH]; intros i; simpl.
  - by rewrite Nat.add_0_r.
  - rewrite IH, <- app_assoc. by replace (S i + length l1) with (i + S (length l1)) by lia.
Qed.

Lemma elem_of_flat_from y i l :
  y ∈ flat_from f i l ↔ ∃ j x, l !! j = Some x ∧ y ∈ f (i + j) x.
Proof.
  revert i. induction l as [|x l IH]; intros i; simpl.
  - split; [by intros ?%elem_of_nil | by intros (j & x & ? & _)].
  - rewrite elem_of_app, IH. split.
    + intros [H | (j & x' & Hj & H)].
      * exists 0, x. by rewrite Nat.add_0_r.
      * exists (S j), x'. by replace (i + S j) with (S i + j) by lia.
    + intros ([|j] & x' & Hj & H); simpl in Hj.
      * left. injection Hj as ->. by rewrite Nat.add_0_r in H.
      * right. exists j, x'. by replace (S i + j) with (i + S j) by lia.
Qed.

Lemma sublist_flat_from i l j x :
  l !! j = Some x → f (i + j) x `sublist_of` flat_from f i l.
Proof.
  revert i j. induction l as [|x' l IH]; intros i [|j] Hj; simplify_eq/=.
  - rewrite Nat.add_0_r. by apply sublist_inserts_r.
  - apply sublist_inserts_l. replace (i + S j) with (S i + j) by lia. by apply IH.
Qed.
End flat_from_facts.

Lemma map_from_lookup {A B} (f : nat → A → B) i l j :
  map_from f i l !! j = f (i + j) <$> l !! j.
Proof.
  revert i j. induction l as [|x l IH]; intros i [|j]; simpl; try done.
  - by rewrite Nat.add_0_r.
  - rewrite IH. by replace (S i + j) with (i + S j) by lia.
Qed.

Lemma map_from_app {A B} (f : nat → A → B) i l1 l2 :
  map_from f i (l1 ++ l2) = map_from f i l1 ++ map_from f (i + length l1) l2.
Proof.
  revert i. induction l1 as [|x l1 IH]; intros i; simpl.
  - by rewrite Nat.add_0_r.
  - rewrite IH. by replace (S i + length l1) with (i + S (length l1)) by lia.
Qed.

Lemma map_from_length {A B} (f : nat → A → B) i l :
  length (map_from f i l) = length l.
Proof. revert i. induction l; intros; simpl; auto. Qed.

Lemma filter_nil_not {A} (P : A → Prop) `{!∀ x, Decision (P x)} l :
  (∀ x, x ∈ l → ¬ P x) → filter P l = [].
Proof.
  induction l as [|x l IH]; intros Hn; [done|].
  rewrite filter_cons_False by (apply Hn; left). apply IH. intros; apply Hn. by right.
Qed.

(** A sublist of a duplicate-free list that holds every element satisfying
    [P] filters to the same list. *)
Lemma filter_sublist_eq {A} (P : A → Prop) `{!∀ x, Decision (P x)} l L :
  l `sublist_of` L → NoDup L → (∀ y, y ∈ L → P y → y ∈ l) →
  filter P L = filter P l.
Proof.
  induction 1 as [|x l L Hs IH|x l L Hs IH]; intros Hnd Hin; [done|..].
  - apply NoDup_cons in Hnd as [Hx Hnd].
    rewrite !filter_cons. rewrite IH; [done|done|].
    intros y Hy HP. pose proof (Hin y (list_elem_of_further _ _ _ Hy) HP) as Hy'.
    apply elem_of_cons in Hy' as [->|]; done.
  - apply NoDup_cons in Hnd as [Hx Hnd].
    rewrite filter_cons_False.
    + apply IH; [done|]. intros y Hy HP. apply Hin; [by right|done].
    + intros HP. apply Hx. eapply elem_of_sublist; [|exact Hs]. apply Hin; [by left|done].
Qed.

(** ** Paths *)

Lemma Element_ind' (P : Element → Prop) :
  (∀ t a s ks, Forall P ks → P (El t a s ks)) → ∀ e, P e.
Proof.
  intros H. fix IH 1. intros [t a s ks]. apply H.
  induction ks as [|k ks IHks]; constructor; [apply IH | apply IHks].
Qed.

Lemma elem_of_ancestors (x y : ERef) :
  x ∈ ancestors y ↔ ∃ j, (j :: x) `suffix_of` y.
Proof.
  induction y as [|i up IH]; simpl.
  - split; [by intros ?%elem_of_nil | by intros [j ?%suffix_cons_nil_inv]].
  - rewrite elem_of_cons, IH. split.
    + intros [-> | [j Hj]]; [by exists i | exists j; by apply suffix_cons_r].
    + intros [j [Hj | Hj]%suffix_cons_inv]; [left; congruence | right; by exists j].
Qed.

Lemma ancestors_length x y : x ∈ ancestors y → length x < length y.
Proof. intros [j Hj%suffix_length]%elem_of_ancestors. simpl in Hj. lia. Qed.

Lemma ancestors_suffix x y : x ∈ ancestors y → x `suffix_of` y.
Proof. intros [j Hj]%elem_of_ancestors. by eapply suffix_cons_l. Qed.

Lemma ancestors_trans x y z : x ∈ ancestors y → y ∈ ancestors z → x ∈ ancestors z.
Proof.
  rewrite !elem_of_ancestors. intros [j Hj] [i Hi]. exists j.
  etrans; [exact Hj|]. by eapply suffix_cons_l.
Qed.

Lemma ancestors_irrefl x : x ∉ ancestors x.
Proof. intros ?%ancestors_length. lia. Qed.

(** Two children of one element have no descendant in common. *)
Lemma child_suffix_inj (i j : nat) (p y : ERef) :
  (i :: p) `suffix_of` y → (j :: p) `suffix_of` y → i = j.
Proof.
  intros Hi Hj. destruct (suffix_weak_total _ _ _ Hi Hj) as [H|H];
    apply suffix_length_eq in H; simpl; try lia; congruence.
Qed.

(** ** The elements found by the walker *)

Lemma accepted_eq p e :
  accepted p e = (if marked e then [p] else []) ++ accepted_below p 0 (el_children e).
Proof. by destruct e. Qed.

Lemma tops_eq q k :
  tops q k = if marked k then [q] else tops_below q 0 (el_children k).
Proof. by destruct k. Qed.

Lemma elem_of_accepted_below y p i ks :
  y ∈ accepted_below p i ks ↔ ∃ j k, ks !! j = Some k ∧ y ∈ accepted ((i + j) :: p) k.
Proof. apply elem_of_flat_from. Qed.

Lemma accepted_suffix e : ∀ p y, y ∈ accepted p e → p `suffix_of` y.
Proof.
  induction e as [t a s ks IH] using Element_ind'. intros p y.
  rewrite accepted_eq, elem_of_app. simpl. intros [Hy | Hy].
  - destruct (marked _); [|by apply elem_of_nil in Hy].
    by apply list_elem_of_singleton in Hy as ->.
  - apply elem_of_accepted_below in Hy as (j & k & Hk & Hy).
    rewrite Forall_lookup in IH. eapply suffix_cons_l, IH; eauto.
Qed.

Lemma accepted_below_suffix y p i ks :
  y ∈ accepted_below p i ks →
  ∃ j k, ks !! j = Some k ∧ y ∈ accepted ((i + j) :: p) k ∧ ((i + j) :: p) `suffix_of` y.
Proof.
  intros (j & k & Hk & Hy)%elem_of_accepted_below.
  exists j, k. split_and!; [done..|by eapply accepted_suffix].
Qed.

Lemma accepted_below_ancestor y p i ks :
  y ∈ accepted_below p i ks → p ∈ ancestors y.
Proof.
  intros (j & k & _ & _ & Hs)%accepted_below_suffix.
  apply elem_of_ancestors. eauto.
Qed.

Lemma accepted_NoDup e : ∀ p, NoDup (accepted p e).
Proof.
  induction e as [t a s ks IH] using Element_ind'. intros p.
  rewrite accepted_eq. simpl. apply NoDup_app. split_and!.
  - destruct (marked _); [apply NoDup_singleton | apply NoDup_nil_2].
  - intros y Hy Hb. destruct (marked _); [|by apply elem_of_nil in Hy].
    apply list_elem_of_singleton in Hy as ->.
    by apply accepted_below_ancestor, ancestors_irrefl in Hb.
  - generalize 0. induction IH as [|k ks Hk _ IHks]; intros i; [apply NoDup_nil_2|].
    unfold accepted_below in *. simpl. apply NoDup_app. split_and!; [apply Hk| |apply IHks].
    intros y Hy Hb. apply accepted_suffix in Hy.
    apply accepted_below_suffix in Hb as (j & k' & _ & _ & Hs).
    pose proof (child_suffix_inj _ _ _ _ Hy Hs). lia.
Qed.

Lemma accepted_below_NoDup p i ks : NoDup (accepted_below p i ks).
Proof.
  revert i. induction ks as [|k ks IHks]; intros i; [apply NoDup_nil_2|].
  unfold accepted_below in *. simpl. apply NoDup_app. split_and!; [apply accepted_NoDup| |apply IHks].
  intros y Hy Hb. apply accepted_suffix in Hy.
  apply accepted_below_suffix in Hb as (j & k' & _ & _ & Hs).
  pose proof (child_suffix_inj _ _ _ _ Hy Hs). lia.
Qed.


Lemma accepted_below_ancestors_first p i ks :
  Forall (λ k, ∀ q, ancestors_first (accepted q k)) ks →
  ancestors_first (accepted_below p i ks).
Proof.
  intros IH. revert i. induction IH as [|k ks Hk _ IHks]; intros i x y Hx Hy Hxy.
  { by apply elem_of_nil in Hx. }
  unfold accepted_below in *. simpl in *.
  apply elem_of_app in Hx as [Hx|Hx], Hy as [Hy|Hy].
  - apply sublist_inserts_r. by apply Hk.
  - exfalso. apply accepted_suffix in Hx.
    apply accepted_below_suffix in Hy as (j & k' & _ & _ & Hs).
    apply ancestors_suffix in Hxy.
    assert ((i :: p) `suffix_of` y) as Hi by (by etrans).
    pose proof (child_suffix_inj _ _ _ _ Hi Hs). lia.
  - exfalso. apply accepted_suffix in Hy.
    apply accepted_below_suffix in Hx as (j & k' & _ & _ & Hs).
    apply ancestors_suffix in Hxy.
    assert ((S i + j :: p) `suffix_of` y) as Hi by (by etrans).
    pose proof (child_suffix_inj _ _ _ _ Hi Hy). lia.
  - apply sublist_inserts_l. by apply IHks.
Qed.

Lemma accepted_ancestors_first e : ∀ p, ancestors_first (accepted p e).
Proof.
  induction e as [t a s ks IH] using Element_ind'. intros p x y.
  rewrite accepted_eq. simpl. intros Hx Hy Hxy.
  apply elem_of_app in Hy as [Hy|Hy].
  { exfalso. destruct (marked _); [|by apply elem_of_nil in Hy].
    apply list_elem_of_singleton in Hy as ->.
    apply ancestors_length in Hxy.
    assert (p `suffix_of` x) as ?%suffix_length; [|lia].
    apply elem_of_app in Hx as [Hx|Hx].
    - by apply list_elem_of_singleton in Hx as ->.
    - apply ancestors_suffix. by eapply accepted_below_ancestor. }
  apply elem_of_app in Hx as [Hx|Hx].
  - destruct (marked _); [|by apply elem_of_nil in Hx].
    apply list_elem_of_singleton in Hx as ->.
    simpl. apply sublist_skip. by apply singleton_sublist_l.
  - apply sublist_inserts_l. by apply (accepted_below_ancestors_first p 0 ks IH).
Qed.

Lemma ancestors_first_take l k x y :
  NoDup l → ancestors_first l → l !! k = Some y → x ∈ l → x ∈ ancestors y →
  x ∈ take k l.
Proof.
  intros Hnd Haf Hk Hx Hxy.
  assert (y ∈ l) as Hy by (by eapply list_elem_of_lookup_2).
  pose proof (Haf x y Hx Hy Hxy) as Hs.
  assert (x ≠ y) as Hne by (intros ->; by apply ancestors_irrefl in Hxy).
  rewrite <- (take_drop_middle l k y Hk) in Hs, Hnd.
  apply NoDup_app in Hnd as (_ & Hd1 & Hnd2).
  apply NoDup_cons in Hnd2 as [Hy2 _].
  apply sublist_app_r in Hs as (s1 & s2 & Hs12 & Hs1 & Hs2).
  destruct s1 as [|x1 s1]; simpl in Hs12; subst.
  - exfalso. apply sublist_cons_r in Hs2 as [Hs2 | (l' & Heq & Hs2)].
    + apply Hy2. eapply elem_of_sublist; [|exact Hs2]. rewrite !elem_of_cons; auto.
    + congruence.
  - injection Hs12 as -> Hs12. eapply elem_of_sublist; [|exact Hs1]. by left.
Qed.

(** ** The nearest accepted ancestor *)

Section parentIn_facts.
Context (L : list ERef).

Lemma parentIn_Some y x :
  parentIn L y = Some x → x ∈ L ∧ x ∈ ancestors y.
Proof.
  induction y as [|i up IH]; simpl; [done|].
  case_decide as Hup.
  - intros [= <-]. split; [done | by left].
  - intros [??]%IH. split; [done | by right].
Qed.

Lemma parentIn_nearest y x z :
  parentIn L y = Some x → z ∈ L → z ∈ ancestors y →
  z = x ∨ z ∈ ancestors x.
Proof.
  induction y as [|i up IH]; simpl; [done|].
  case_decide as Hup.
  - intros [= <-] Hz [->|Hz']%elem_of_cons; auto.
  - intros Hp Hz [->|Hz']%elem_of_cons; [done | auto].
Qed.

Lemma parentIn_None y :
  parentIn L y = None ↔ ∀ z, z ∈ ancestors y → z ∉ L.
Proof.
  induction y as [|i up IH]; simpl.
  - split; [by intros _ z ?%elem_of_nil | done].
  - case_decide as Hup.
    + split; [done | intros H; exfalso; eapply H; [by left | done]].
    + rewrite IH. split.
      * intros H z [->|Hz]%elem_of_cons; auto.
      * intros H z Hz. apply H. by right.
Qed.

Lemma ancestorsIn_parentIn y :
  ancestorsIn L y =
  match parentIn L y with Some x => S (ancestorsIn L x) | None => 0 end.
Proof.
  unfold ancestorsIn. induction y as [|i up IH]; simpl; [done|].
  case_decide as Hup.
  - by rewrite filter_cons_True.
  - by rewrite filter_cons_False.
Qed.

Lemma selfOrParentIn_suffix q s : selfOrParentIn L q = Some s → s `suffix_of` q.
Proof.
  unfold selfOrParentIn. case_decide.
  - by intros [= <-].
  - intros [_ ?]%parentIn_Some. by apply ancestors_suffix.
Qed.

Lemma parentIn_child j q : parentIn L (j :: q) = selfOrParentIn L q.
Proof. done. Qed.

(** Walking up from below [q] either stops strictly below [q] or goes on
    from [q]. *)
Lemma parentIn_descendant y q :
  q ∈ ancestors y →
  parentIn L y = selfOrParentIn L q ∨
  ∃ w, parentIn L y = Some w ∧ q ∈ ancestors w.
Proof.
  induction y as [|i up IH]; simpl; [by intros ?%elem_of_nil|].
  intros [->|Hq]%elem_of_cons; [by left|].
  case_decide as Hup; [right; eauto|]. by apply IH.
Qed.

Lemma parentIn_below_ne y q :
  q ∈ L → q ∈ ancestors y → ∀ a, a = None ∨ (∃ s, a = Some s ∧ s ∈ ancestors q) →
  parentIn L y ≠ a.
Proof.
  intros Hq Hy a Ha Hp.
  destruct (parentIn_descendant y q Hy) as [H | (w & H & Hw)].
  - unfold selfOrParentIn in H. rewrite decide_True in H by done.
    rewrite H in Hp. destruct Ha as [-> | (s & -> & Hs)]; [done|].
    injection Hp as <-. by apply ancestors_irrefl in Hs.
  - rewrite H in Hp. destruct Ha as [-> | (s & -> & Hs)]; [done|].
    injection Hp as ->. apply (ancestors_irrefl q). by eapply ancestors_trans.
Qed.
End parentIn_facts.

Lemma suffix_ancestors (s p : ERef) : s `suffix_of` p → s = p ∨ s ∈ ancestors p.
Proof.
  intros [k ->]. destruct k as [|j k _] using rev_ind; [by left|]. right.
  apply elem_of_ancestors. exists j, k. by rewrite <- app_assoc.
Qed.

(** ** Subtrees inside the list of found elements *)


Section covers_facts.
Context (L : list ERef).

Lemma covers_children q k : covers L q k → covers_below L q (el_children k).
Proof.
  intros [Hs Hin]. split.
  - etrans; [|exact Hs]. rewrite accepted_eq. by apply sublist_inserts_l.
  - intros y Hy Hq. pose proof (Hin y Hy (ancestors_suffix _ _ Hq)) as Hacc.
    rewrite accepted_eq in Hacc. apply elem_of_app in Hacc as [Hown|]; [|done].
    destruct (marked k); [|by apply elem_of_nil in Hown].
    apply list_elem_of_singleton in Hown as ->. by apply ancestors_irrefl in Hq.
Qed.

Lemma covers_below_child q ks j c :
  covers_below L q ks → ks !! j = Some c → covers L (j :: q) c.
Proof.
  intros [Hs Hin] Hj. split.
  - etrans; [|exact Hs].
    apply (sublist_flat_from (λ j k, accepted (j :: q) k) 0 ks j c Hj).
  - intros y Hy Hq.
    assert (q ∈ ancestors y) as Hanc by (apply elem_of_ancestors; eauto).
    apply Hin, accepted_below_suffix in Hanc as (j' & c' & Hj' & Hacc & Hsuf); [|done].
    simpl in *. pose proof (child_suffix_inj _ _ _ _ Hq Hsuf) as <-. congruence.
Qed.

Lemma covers_marked_in q k : covers L q k → marked k = true → q ∈ L.
Proof.
  intros [Hs _] Hm. eapply elem_of_sublist; [|exact Hs].
  rewrite accepted_eq, Hm. by left.
Qed.

Lemma covers_unmarked_notin q k : covers L q k → marked k = false → q ∉ L.
Proof.
  intros [_ Hin] Hm Hq. pose proof (Hin q Hq (reflexivity _)) as Hacc.
  rewrite accepted_eq, Hm in Hacc. simpl in Hacc.
  by apply accepted_below_ancestor, ancestors_irrefl in Hacc.
Qed.

Lemma filter_tops_from q ks : ∀ i,
  Forall (tops_spec L) ks →
  (∀ j c, ks !! j = Some c → covers L ((i + j) :: q) c) →
  filter (λ y, parentIn L y = selfOrParentIn L q) (accepted_below q i ks)
  = tops_below q i ks.
Proof.
  intros i IH. revert i. induction IH as [|c ks Hc _ IHks]; intros i Hcov; [done|].
  unfold accepted_below, tops_below in *. simpl.
  rewrite filter_app, IHks; last first.
  { intros j c' Hj. replace (S i + j) with (i + S j) by lia. by apply Hcov. }
  f_equal. pose proof (Hcov 0 c eq_refl) as Hcc. rewrite Nat.add_0_r in Hcc.
  rewrite accepted_eq, tops_eq, filter_app.
  destruct (marked c) eqn:Hm.
  - rewrite filter_cons_True by done. rewrite filter_nil. simpl. f_equal.
    apply filter_nil_not. intros y Hy.
    apply (parentIn_below_ne L y (i :: q)).
    + by eapply covers_marked_in.
    + by eapply accepted_below_ancestor.
    + destruct (selfOrParentIn L q) as [s|] eqn:Hs; [right|by left].
      exists s. split; [done|]. apply selfOrParentIn_suffix in Hs.
      destruct (suffix_ancestors _ _ Hs) as [->|Hs']; [by left | by right].
  - rewrite filter_nil. simpl. rewrite <- (Hc (i :: q) Hcc).
    assert (selfOrParentIn L (i :: q) = selfOrParentIn L q) as ->; [|done].
    unfold selfOrParentIn at 1.
    by rewrite (decide_False (P := (i :: q) ∈ L)) by (by eapply covers_unmarked_notin).
Qed.

Lemma tops_spec_all c : tops_spec L c.
Proof.
  induction c as [t a s ks IH] using Element_ind'. intros q Hcov. simpl.
  apply filter_tops_from; [done|]. intros j c Hj. simpl.
  eapply covers_below_child; [|done]. by apply covers_children in Hcov.
Qed.

Lemma filter_tops_below q ks :
  covers_below L q ks →
  filter (λ y, parentIn L y = selfOrParentIn L q) (accepted_below q 0 ks)
  = tops_below q 0 ks.
Proof.
  intros Hcov. apply filter_tops_from.
  - apply Forall_forall. intros; apply tops_spec_all.
  - intros j c Hj. simpl. by eapply covers_below_child.
Qed.

Lemma filter_children q k :
  NoDup L → covers L q k → marked k = true →
  filter (λ y, parentIn L y = Some q) L = tops_below q 0 (el_children k).
Proof.
  intros Hnd Hcov Hm.
  pose proof (covers_children _ _ Hcov) as Hb.
  rewrite <- (filter_tops_below q _ Hb).
  unfold selfOrParentIn. rewrite decide_True by (by eapply covers_marked_in).
  apply filter_sublist_eq; [apply Hb | done |].
  intros y Hy [_ Hq]%parentIn_Some. by apply Hb.
Qed.
End covers_facts.

(** ** The two loops of [buildTree] *)

Lemma indexIn_lookup (L : list ERef) i y :
  NoDup L → L !! i = Some y → indexIn L y = i.
Proof.
  intros Hnd Hi. unfold indexIn.
  assert (list_find (λ x, x = y) L = Some (i, y)) as ->; [|done].
  apply list_find_Some. split_and!; [done..|].
  intros j z Hj Hlt ->. pose proof (NoDup_lookup _ _ _ _ Hnd Hi Hj). lia.
Qed.

Lemma lookup_indexIn (L : list ERef) y :
  NoDup L → y ∈ L → L !! indexIn L y = Some y.
Proof.
  intros Hnd [i Hi]%list_elem_of_lookup. by rewrite (indexIn_lookup L i y).
Qed.

Lemma alloc_fold d (L : list ERef) : ∀ h nodes,
  fold_left (allocNode d) L (h, nodes)
  = (h ++ map (newNode d) L, nodes ++ seq (length h) (length L)).
Proof.
  induction L as [|y L IH]; intros h nodes; simpl.
  - by rewrite !app_nil_r.
  - rewrite IH, length_app, <- !app_assoc. simpl.
    by replace (length h + 1) with (S (length h)) by lia.
Qed.

Lemma parentIn_iff (L : list ERef) y x :
  parentIn L y = Some x ↔ nearest_ancestor_in L y x.
Proof.
  split.
  - intros Hp. destruct (parentIn_Some L y x Hp). split_and!; [done..|].
    intros z. by apply parentIn_nearest.
  - intros (Hx & Hxy & Hnear). destruct (parentIn L y) as [x'|] eqn:Hp.
    + destruct (parentIn_Some L y x' Hp) as [Hx' Hxy'].
      destruct (parentIn_nearest L y x' x Hp Hx Hxy) as [->|H1]; [done|].
      destruct (Hnear x' Hx' Hxy') as [->|H2]; [done|].
      exfalso. apply (ancestors_irrefl x). by eapply ancestors_trans.
    + exfalso. rewrite parentIn_None in Hp. by eapply Hp.
Qed.

Lemma addrIn_inj base (L : list ERef) i y z :
  NoDup L → L !! i = Some y → z ∈ L → addrIn base L z = base + i → z = y.
Proof.
  intros Hnd Hi Hz Ha. unfold addrIn in Ha.
  pose proof (lookup_indexIn L z Hnd Hz) as Hz'.
  assert (indexIn L z = i) as Heq by lia. rewrite Heq in Hz'. congruence.
Qed.

Lemma elem_of_addr_filter base (L : list ERef) (P : ERef → Prop)
    `{!∀ x, Decision (P x)} i y :
  NoDup L → L !! i = Some y →
  base + i ∈ map (addrIn base L) (filter P L) ↔ P y.
Proof.
  intros Hnd Hi. rewrite list_elem_of_fmap. split.
  - intros (z & Hz & [HP Hin]%list_elem_of_filter).
    by rewrite <- (addrIn_inj base L i y z Hnd Hi Hin).
  - intros HP. exists y. split.
    + unfold addrIn. by rewrite (indexIn_lookup L i y).
    + apply list_elem_of_filter. split; [done | by eapply list_elem_of_lookup_2].
Qed.

Section buildTree_facts.
Context (d : Document) (h0 : Store) (L : list ERef).
Context (Hnd : NoDup L).
Context (Haf : ∀ k y x, L !! k = Some y → parentIn L y = Some x → x ∈ take k L).

Local Abbreviation base := (length h0).
Local Abbreviation nodes := (seq (length h0) (length L)).

Lemma findParentNode_spec (h : Store) y :
  (∀ i, element <$> h !! (base + i) = L !! i) →
  findParentNode h y nodes = addrIn base L <$> parentIn L y.
Proof.
  intros Hel. induction y as [|j up IH]; simpl; [done|].
  destruct (list_find (λ x, x = up) L) as [[i x]|] eqn:Hf.
  - apply list_find_Some in Hf as (Hi & -> & Hmin).
    rewrite decide_True by (by eapply list_elem_of_lookup_2). simpl.
    assert (list_find (λ a, element <$> h !! a = Some up) nodes
            = Some (i, base + i)) as ->.
    { apply list_find_Some. split_and!.
      - apply lookup_seq. split; [done|]. by eapply lookup_lt_Some.
      - by rewrite Hel.
      - intros j' a [-> _]%lookup_seq Hlt. rewrite Hel. intros Hj'.
        by eapply Hmin. }
    unfold addrIn. by rewrite (indexIn_lookup L i up).
  - apply list_find_None in Hf.
    assert (up ∉ L) as Hup.
    { intros Hup. rewrite Forall_forall in Hf. by eapply Hf. }
    rewrite decide_False by done.
    assert (list_find (λ a, element <$> h !! a = Some up) nodes = None) as ->; [|done].
    apply list_find_None, Forall_forall. intros a [i [-> _]%lookup_seq]%list_elem_of_lookup.
    rewrite Hel. intros Hi. apply Hup. by eapply list_elem_of_lookup_2.
Qed.

Lemma lookup_linkedStore_old k a :
  a < base → linkedStore d h0 L k !! a = h0 !! a.
Proof. intros. unfold linkedStore. by rewrite lookup_app_l. Qed.

Lemma lookup_linkedStore_new k i :
  linkedStore d h0 L k !! (base + i) = linkedNode d base L k <$> L !! i.
Proof.
  unfold linkedStore. rewrite lookup_app_r by lia.
  replace (base + i - base) with i by lia. apply list_lookup_fmap.
Qed.

Lemma linkedStore_length k : length (linkedStore d h0 L k) = base + length L.
Proof. unfold linkedStore. by rewrite length_app, length_map. Qed.

Lemma linkedStore_element k i :
  element <$> linkedStore d h0 L k !! (base + i) = L !! i.
Proof. rewrite lookup_linkedStore_new. by destruct (L !! i). Qed.

Lemma elem_of_take_S k y y' :
  L !! k = Some y → y' ∈ take (S k) L ↔ y' ∈ take k L ∨ y' = y.
Proof.
  intros Hk. rewrite (take_S_r _ _ _ Hk), elem_of_app, list_elem_of_singleton. done.
Qed.

Lemma not_elem_of_take k y : L !! k = Some y → y ∉ take k L.
Proof.
  intros Hk [j Hj]%list_elem_of_lookup.
  apply lookup_take_Some in Hj as [Hj Hlt].
  pose proof (NoDup_lookup _ _ _ _ Hnd Hk Hj). lia.
Qed.

Lemma linkedNode_S k y y' :
  L !! k = Some y →
  linkedNode d base L (S k) y' =
  {| element := y';
     sourcePath := sourcePath (linkedNode d base L k y');
     tagName := tagName (linkedNode d base L k y');
     children := children (linkedNode d base L k y') ++
                 (if decide (parentIn L y = Some y') then [base + k] else []);
     depth := if decide (y' = y) then ancestorsIn L y
              else depth (linkedNode d base L k y') |}.
Proof.
  intros Hk. unfold linkedNode. simpl. f_equal.
  - rewrite (take_S_r _ _ _ Hk), filter_app, map_app. f_equal.
    case_decide.
    + rewrite filter_cons_True by done. simpl. unfold addrIn.
      by rewrite (indexIn_lookup L k y).
    + by rewrite filter_cons_False.
  - destruct (decide (y' = y)) as [->|Hne].
    + rewrite decide_True; [done|]. apply (elem_of_take_S k y y Hk). by right.
    + apply decide_ext. rewrite (elem_of_take_S k y y' Hk). intuition.
Qed.

Lemma take_parent_index k y x :
  L !! k = Some y → parentIn L y = Some x →
  ∃ i, i < k ∧ L !! i = Some x ∧ addrIn base L x = base + i.
Proof.
  intros Hk Hp. pose proof (Haf k y x Hk Hp) as [i Hi]%list_elem_of_lookup.
  apply lookup_take_Some in Hi as [Hi Hlt]. exists i. split_and!; [done..|].
  unfold addrIn. by rewrite (indexIn_lookup L i x).
Qed.

Lemma linkNode_step k :
  k < length L →
  linkNode nodes (linkedStore d h0 L k, linkedRoots base L k) (base + k)
  = (linkedStore d h0 L (S k), linkedRoots base L (S k)).
Proof.
  intros Hlt. destruct (lookup_lt_is_Some_2 L k Hlt) as [y Hk].
  unfold linkNode. rewrite lookup_linkedStore_new, Hk. simpl.
  rewrite (findParentNode_spec _ _ (linkedStore_element k)).
  destruct (parentIn L y) as [x|] eqn:Hp; simpl.
  - destruct (take_parent_index k y x Hk Hp) as (i & Hik & Hi & ->).
    rewrite list_lookup_alter_eq, lookup_linkedStore_new, Hi. simpl.
    rewrite decide_True by (eapply Haf; eauto).
    f_equal.
    + apply list_eq. intros a. rewrite !list_lookup_alter.
      destruct (decide (a < base)) as [Ha|Ha].
      * rewrite !decide_False by lia. by rewrite !lookup_linkedStore_old.
      * replace a with (base + (a - base)) by lia. generalize (a - base). clear a Ha.
        intros i'. rewrite !lookup_linkedStore_new.
        assert (x ≠ y) as Hxy.
        { intros ->. apply parentIn_Some in Hp as [_ Hp].
          by apply ancestors_irrefl in Hp. }
        destruct (decide (k = i')) as [<-|Hne1].
        { rewrite decide_True, decide_False by lia. rewrite Hk. simpl.
          rewrite (linkedNode_S k y y Hk), Hp.
          rewrite decide_False by congruence. rewrite decide_True by done.
          rewrite (ancestorsIn_parentIn L y), Hp.
          unfold set_depth. simpl. by rewrite app_nil_r, Nat.add_1_r. }
        rewrite decide_False by lia.
        destruct (decide (i = i')) as [<-|Hne2].
        { rewrite decide_True by lia. rewrite Hi. simpl.
          rewrite (linkedNode_S k y x Hk), Hp.
          rewrite decide_True by done. rewrite decide_False by done.
          done. }
        rewrite decide_False by lia.
        destruct (L !! i') as [y'|] eqn:Hi'; simpl; [|done].
        rewrite (linkedNode_S k y y' Hk), Hp.
        rewrite !decide_False; [by rewrite app_nil_r| |].
        -- intros ->. by pose proof (NoDup_lookup _ _ _ _ Hnd Hk Hi').
        -- intros [= ->]. by pose proof (NoDup_lookup _ _ _ _ Hnd Hi Hi').
    + unfold linkedRoots. rewrite (take_S_r _ _ _ Hk), filter_app, map_app.
      rewrite filter_cons_False by (by rewrite Hp). by rewrite filter_nil, app_nil_r.
  - f_equal.
    + apply list_eq. intros a.
      destruct (decide (a < base)) as [Ha|Ha].
      * by rewrite !lookup_linkedStore_old.
      * replace a with (base + (a - base)) by lia. generalize (a - base). clear a Ha.
        intros i'. rewrite !lookup_linkedStore_new.
        destruct (L !! i') as [y'|] eqn:Hi'; simpl; [|done].
        rewrite (linkedNode_S k y y' Hk), Hp. f_equal.
        rewrite decide_False by done. rewrite app_nil_r.
        rewrite (ancestorsIn_parentIn L y), Hp.
        destruct (decide (y' = y)) as [->|Hne]; [|done].
        unfold linkedNode. simpl.
        rewrite decide_False by (by apply not_elem_of_take). done.
    + unfold linkedRoots. rewrite (take_S_r _ _ _ Hk), filter_app, map_app.
      rewrite filter_cons_True by done. rewrite filter_nil. simpl.
      unfold addrIn. by rewrite (indexIn_lookup L k y).
Qed.

Lemma linkNode_fold k :
  k ≤ length L →
  fold_left (linkNode nodes) (seq base k)
            (linkedStore d h0 L 0, linkedRoots base L 0)
  = (linkedStore d h0 L k, linkedRoots base L k).
Proof.
  induction k as [|k IH]; intros Hk; [done|].
  rewrite seq_S, fold_left_app, IH by lia. simpl. apply linkNode_step. lia.
Qed.

Lemma buildTree_linked :
  buildTree d h0 L
  = (linkedStore d h0 L (length L), linkedRoots base L (length L)).
Proof.
  unfold buildTree. rewrite alloc_fold. simpl.
  rewrite <- (linkNode_fold (length L)) by done. done.
Qed.

(** Who gets a node as a child, and which nodes are roots. *)
Lemma linked_parents i y :
  L !! i = Some y →
  (∀ j x, L !! j = Some x →
     ((∃ parent, (buildTree d h0 L).1 !! (base + j) = Some parent ∧
                 base + i ∈ children parent)
      ↔ nearest_ancestor_in L y x) ∧
     (findParentNode (buildTree d h0 L).1 y nodes = Some (base + j)
      ↔ nearest_ancestor_in L y x)) ∧
  (base + i ∈ (buildTree d h0 L).2 ↔ ∀ z, z ∈ ancestors y → z ∉ L) ∧
  (findParentNode (buildTree d h0 L).1 y nodes = None
   ↔ ∀ z, z ∈ ancestors y → z ∉ L).
Proof.
  intros Hi. rewrite buildTree_linked. cbn [fst snd].
  rewrite (findParentNode_spec _ y (linkedStore_element (length L))).
  split_and!.
  - intros j x Hj. rewrite <- parentIn_iff. split.
    + rewrite lookup_linkedStore_new, Hj. unfold linkedNode.
      rewrite firstn_all. split.
      * intros (parent & [= <-] & Hin). cbn [children] in Hin.
        by apply (elem_of_addr_filter base L (λ z, parentIn L z = Some x) i y Hnd Hi) in Hin.
      * intros Hp. eexists. split; [done|]. cbn [children].
        by apply (elem_of_addr_filter base L (λ z, parentIn L z = Some x) i y Hnd Hi).
    + destruct (parentIn L y) as [z|] eqn:Hp; [|by split].
      split.
      * intros [= Hz]. f_equal. apply (addrIn_inj base L j x z Hnd Hj); [|done].
        by apply parentIn_Some in Hp as [? _].
      * intros [= ->]. cbn. f_equal. unfold addrIn. by rewrite (indexIn_lookup L j x).
  - unfold linkedRoots. rewrite firstn_all.
    rewrite (elem_of_addr_filter base L (λ z, parentIn L z = None) i y Hnd Hi).
    apply parentIn_None.
  - rewrite <- parentIn_None. by destruct (parentIn L y).
Qed.
End buildTree_facts.

(** ** The elements found in a document *)

Lemma doc_lookup_body d : doc_lookup d (bodyRef d) = Some (body d).
Proof.
  unfold doc_lookup, bodyRef, documentElement. simpl.
  by rewrite list_lookup_middle.
Qed.

Lemma doc_lookup_child d q j :
  doc_lookup d (j :: q) = doc_lookup d q ≫= λ e, el_children e !! j.
Proof. done. Qed.

Lemma found_eq d :
  findElementsWithSourcePath d (bodyRef d)
  = accepted_below (bodyRef d) 0 (el_children (body d)).
Proof. unfold findElementsWithSourcePath. by rewrite doc_lookup_body. Qed.

Lemma found_NoDup d : NoDup (findElementsWithSourcePath d (bodyRef d)).
Proof. rewrite found_eq. apply accepted_below_NoDup. Qed.

Lemma found_ancestors_first d k y x :
  let L := findElementsWithSourcePath d (bodyRef d) in
  L !! k = Some y → parentIn L y = Some x → x ∈ take k L.
Proof.
  intros L Hk [Hx Hxy]%parentIn_Some.
  eapply ancestors_first_take; eauto using found_NoDup.
  unfold L. rewrite found_eq. apply accepted_below_ancestors_first.
  apply Forall_forall. intros; apply accepted_ancestors_first.
Qed.

Lemma found_below_body d y :
  y ∈ findElementsWithSourcePath d (bodyRef d) → bodyRef d ∈ ancestors y.
Proof. rewrite found_eq. apply accepted_below_ancestor. Qed.

Lemma found_covers d :
  covers_below (findElementsWithSourcePath d (bodyRef d)) (bodyRef d)
               (el_children (body d)).
Proof. rewrite found_eq. split; [done|]. by intros. Qed.

Lemma found_body_top d :
  selfOrParentIn (findElementsWithSourcePath d (bodyRef d)) (bodyRef d) = None.
Proof.
  unfold selfOrParentIn. rewrite decide_False.
  - unfold bodyRef. simpl. rewrite decide_False; [done|].
    intros Hin%found_below_body. by apply elem_of_nil in Hin.
  - by intros ?%found_below_body%ancestors_irrefl.
Qed.

(** ** The forest read from the store *)

Lemma expected_eq addr dp q k :
  expected addr dp q k =
  if marked k then
    [NT (addr q) q (from_option id "" (attr_lookup marker (el_attrs k)))
        (Str.toLowerCase (el_tagName k)) dp
        (expected_below addr (S dp) q 0 (el_children k))]
  else expected_below addr dp q 0 (el_children k).
Proof. by destruct k. Qed.

Lemma ancestorsIn_child_in (L : list ERef) j q :
  q ∈ L → ancestorsIn L (j :: q) = S (ancestorsIn L q).
Proof. intros. unfold ancestorsIn. simpl. by rewrite filter_cons_True. Qed.

Lemma ancestorsIn_child_notin (L : list ERef) j q :
  q ∉ L → ancestorsIn L (j :: q) = ancestorsIn L q.
Proof. intros. unfold ancestorsIn. simpl. by rewrite filter_cons_False. Qed.

Lemma addr_found base (L : list ERef) :
  NoDup L → map (addrIn base L) L = seq base (length L).
Proof.
  intros Hnd. apply list_eq. intros i. rewrite list_lookup_fmap.
  destruct (L !! i) as [y|] eqn:Hi; simpl.
  - unfold addrIn. rewrite (indexIn_lookup L i y) by done.
    symmetry. apply lookup_seq. split; [done|]. by eapply lookup_lt_Some.
  - symmetry. apply lookup_seq_ge. by apply lookup_ge_None.
Qed.

Section unfold_facts.
Context (d : Document) (h0 : Store) (L : list ERef).
Context (Hnd : NoDup L).

Local Abbreviation base := (length h0).
Local Abbreviation addr := (addrIn (length h0) L).
Local Abbreviation h' := (linkedStore d h0 L (length L)).

Lemma final_lookup y :
  y ∈ L →
  h' !! addr y =
  Some {| element := y;
          sourcePath := from_option id "" (getAttribute d y marker);
          tagName := Str.toLowerCase (tagNameOf d y);
          children := map addr (filter (λ z, parentIn L z = Some y) L);
          depth := ancestorsIn L y |}.
Proof.
  intros Hy. unfold addrIn. rewrite lookup_linkedStore_new, lookup_indexIn by done.
  simpl. unfold linkedNode. rewrite firstn_all. by rewrite decide_True.
Qed.

Lemma unfold_from q ks fuel : ∀ i,
  Forall (unfold_spec d h0 L) ks →
  (∀ j c, ks !! j = Some c →
     covers L ((i + j) :: q) c ∧ doc_lookup d ((i + j) :: q) = Some c) →
  length (accepted_below q i ks) ≤ fuel →
  Forall2 (λ a t, unfoldNode fuel h' a = Some t)
          (map addr (tops_below q i ks))
          (expected_below addr (ancestorsIn L (0 :: q)) q i ks).
Proof.
  intros i IH. revert i. induction IH as [|c ks Hc _ IHks]; intros i Hpos Hfuel.
  { constructor. }
  unfold accepted_below, tops_below, expected_below in *. simpl in *.
  rewrite length_app in Hfuel. rewrite map_app. apply Forall2_app.
  - destruct (Hpos 0 c eq_refl) as [Hcov Hlook]. rewrite Nat.add_0_r in Hcov, Hlook.
    apply (Hc (i :: q) fuel Hcov Hlook). lia.
  - apply IHks; [|lia]. intros j c' Hj.
    replace (S i + j) with (i + S j) by lia. by apply Hpos.
Qed.

Lemma unfold_spec_all c : unfold_spec d h0 L c.
Proof.
  induction c as [t a s ks IH] using Element_ind'.
  intros q fuel Hcov Hlook Hfuel.
  assert (∀ j c, ks !! j = Some c →
     covers L ((0 + j) :: q) c ∧ doc_lookup d ((0 + j) :: q) = Some c) as Hpos.
  { intros j c Hj. simpl. split.
    - eapply covers_below_child; [|done]. by apply covers_children in Hcov.
    - unfold doc_lookup in *. simpl. by rewrite Hlook. }
  rewrite accepted_eq in Hfuel. rewrite tops_eq, expected_eq.
  destruct (marked _) eqn:Hm; simpl in *.
  - assert (q ∈ L) as Hq by (by eapply covers_marked_in).
    constructor; [|constructor]. destruct fuel as [|fuel]; [lia|]. simpl.
    rewrite final_lookup by done. simpl.
    rewrite (filter_children L q _ Hnd Hcov Hm). simpl.
    pose proof (unfold_from q ks fuel 0 IH Hpos ltac:(lia)) as HF.
    rewrite (ancestorsIn_child_in L 0 q Hq) in HF.
    apply mapM_Some_2 in HF. rewrite HF. simpl.
    unfold getAttribute, tagNameOf. by rewrite Hlook.
  - assert (q ∉ L) as Hq by (by eapply covers_unmarked_notin).
    pose proof (unfold_from q ks fuel 0 IH Hpos Hfuel) as HF.
    by rewrite (ancestorsIn_child_notin L 0 q Hq) in HF.
Qed.

Lemma unfold_below q ks fuel :
  covers_below L q ks →
  (∀ j c, ks !! j = Some c → doc_lookup d (j :: q) = Some c) →
  length (accepted_below q 0 ks) ≤ fuel →
  unfoldForest fuel h' (map addr (tops_below q 0 ks))
  = Some (expected_below addr (ancestorsIn L (0 :: q)) q 0 ks).
Proof.
  intros Hcov Hlook Hfuel. apply mapM_Some_2, unfold_from; [|..|done].
  - apply Forall_forall. intros; apply unfold_spec_all.
  - intros j c Hj. simpl. split; [by eapply covers_below_child | by apply Hlook].
Qed.
End unfold_facts.

(** The forest a scan builds is the one read off the DOM. *)
Lemma scan_forest d h0 fuel :
  let L := findElementsWithSourcePath d (bodyRef d) in
  length L ≤ fuel →
  unfoldForest fuel (buildTree d h0 L).1 (buildTree d h0 L).2
  = Some (expectedForest d (length h0)).
Proof.
  intros L Hfuel.
  rewrite (buildTree_linked d h0 L (found_NoDup d) (found_ancestors_first d)).
  simpl. unfold linkedRoots. rewrite firstn_all.
  assert (filter (λ z, parentIn L z = None) L
          = tops_below (bodyRef d) 0 (el_children (body d))) as ->.
  { rewrite <- (filter_tops_below L _ _ (found_covers d)).
    rewrite <- (found_eq d). fold L. apply list_filter_iff. intros x.
    unfold L. by rewrite found_body_top. }
  rewrite (unfold_below d h0 L (found_NoDup d) _ _ fuel (found_covers d)).
  - unfold expectedForest. fold L. f_equal. f_equal.
    unfold bodyRef. rewrite ancestorsIn_child_notin.
    + unfold ancestorsIn. simpl. rewrite filter_cons_False; [done|].
      intros Hin%found_below_body. by apply elem_of_nil in Hin.
    + by intros ?%found_below_body%ancestors_irrefl.
  - intros j c Hj. by rewrite doc_lookup_child, doc_lookup_body.
  - unfold L in Hfuel. by rewrite found_eq in Hfuel.
Qed.

(** ** The nodes of the expected forest *)

Lemma NodeTree_ind' (P : NodeTree → Prop) :
  (∀ a e sp tn dp ts, Forall P ts → P (NT a e sp tn dp ts)) → ∀ t, P t.
Proof.
  intros H. fix IH 1. intros [a e sp tn dp ts]. apply H.
  induction ts as [|t ts IHts]; constructor; [apply IH | apply IHts].
Qed.

Lemma nodes_of_eq t : nodes_of t = t :: forest_nodes (nt_children t).
Proof. by destruct t. Qed.

Lemma forest_nodes_app ts1 ts2 :
  forest_nodes (ts1 ++ ts2) = forest_nodes ts1 ++ forest_nodes ts2.
Proof. apply flat_map_app. Qed.

Section listing.
Context (d : Document) (base : nat) (L : list ERef).

Local Abbreviation addr := (addrIn base L).

Lemma expected_listing_from q ks : ∀ i,
  Forall (λ c, ∀ q, covers L q c → doc_lookup d q = Some c →
            Forall2 (node_for d base L) (accepted q c)
              (forest_nodes (expected addr (ancestorsIn L q) q c))) ks →
  (∀ j c, ks !! j = Some c →
     covers L ((i + j) :: q) c ∧ doc_lookup d ((i + j) :: q) = Some c) →
  Forall2 (node_for d base L) (accepted_below q i ks)
    (forest_nodes (expected_below addr (ancestorsIn L (0 :: q)) q i ks)).
Proof.
  intros i IH. revert i. induction IH as [|c ks Hc _ IHks]; intros i Hpos.
  { constructor. }
  unfold accepted_below, expected_below in *. simpl.
  rewrite forest_nodes_app. apply Forall2_app.
  - destruct (Hpos 0 c eq_refl) as [Hcov Hlook]. rewrite Nat.add_0_r in Hcov, Hlook.
    by apply (Hc (i :: q)).
  - apply IHks. intros j c' Hj.
    replace (S i + j) with (i + S j) by lia. by apply Hpos.
Qed.

Lemma expected_listing c : ∀ q,
  covers L q c → doc_lookup d q = Some c →
  Forall2 (node_for d base L) (accepted q c)
    (forest_nodes (expected addr (ancestorsIn L q) q c)).
Proof.
  induction c as [t a s ks IH] using Element_ind'. intros q Hcov Hlook.
  assert (∀ j c, ks !! j = Some c →
     covers L ((0 + j) :: q) c ∧ doc_lookup d ((0 + j) :: q) = Some c) as Hpos.
  { intros j c Hj. simpl. split.
    - eapply covers_below_child; [|done]. by apply covers_children in Hcov.
    - rewrite doc_lookup_child, Hlook. done. }
  pose proof (expected_listing_from q ks 0 IH Hpos) as HF.
  rewrite accepted_eq, expected_eq. destruct (marked _) eqn:Hm; simpl in *.
  - assert (q ∈ L) as Hq by (by eapply covers_marked_in).
    rewrite (ancestorsIn_child_in L 0 q Hq) in HF.
    rewrite app_nil_r.
    constructor; [|done].
    unfold node_for, getAttribute, tagNameOf. rewrite Hlook. done.
  - assert (q ∉ L) as Hq by (by eapply covers_unmarked_notin).
    by rewrite (ancestorsIn_child_notin L 0 q Hq) in HF.
Qed.
End listing.

(** The nodes of the forest of a scan, parents first, are the node objects
    of the found elements, in document order. *)
Lemma expectedForest_listing d base :
  let L := findElementsWithSourcePath d (bodyRef d) in
  Forall2 (node_for d base L) L (forest_nodes (expectedForest d base)).
Proof.
  intros L. unfold expectedForest. fold L.
  pose proof (expected_listing_from d base L (bodyRef d) (el_children (body d)) 0) as HF.
  rewrite <- (found_eq d) in HF. fold L in HF.
  assert (ancestorsIn L (0 :: bodyRef d) = 0) as Hz.
  { unfold bodyRef. rewrite ancestorsIn_child_notin.
    - unfold ancestorsIn. simpl. rewrite filter_cons_False; [done|].
      intros Hin%found_below_body. by apply elem_of_nil in Hin.
    - by intros ?%found_below_body%ancestors_irrefl. }
  rewrite Hz in HF. apply HF.
  - apply Forall_forall. intros c _ q. apply expected_listing.
  - intros j c Hj. simpl. split.
    + eapply covers_below_child; [apply found_covers | done].
    + by rewrite doc_lookup_child, doc_lookup_body.
Qed.

Lemma Forall2_fmap_eq {A B C} (R : A → B → Prop) (f : A → C) (g : B → C) l k :
  Forall2 R l k → (∀ x y, R x y → g y = f x) → map g k = map f l.
Proof. induction 1; intros Hfg; simpl; [done|]. f_equal; auto. Qed.

(** ** Rendering follows the forest *)

Lemma mapM_fmap_ext {A B C} (f : A → option B) (g : A → option C) (r : C → B) l :
  (∀ x, f x = r <$> g x) → mapM f l = map r <$> mapM g l.
Proof.
  intros Hfg. induction l as [|x l IH]; simpl; [done|].
  rewrite Hfg, IH. destruct (g x); simpl; [|done]. by destruct (mapM g l).
Qed.

Lemma lines_of_eq sel t :
  lines_of sel t = line_of sel t :: concat (map (lines_of sel) (nt_children t)).
Proof. destruct t. simpl. by rewrite flat_map_concat_map. Qed.

Lemma lines_of_nodes sel t : lines_of sel t = map (line_of sel) (nodes_of t).
Proof.
  induction t as [a e sp tn dp ts IH] using NodeTree_ind'. simpl. f_equal.
  induction IH as [|t ts Ht _ IHts]; simpl; [done|].
  by rewrite map_app, Ht, IHts.
Qed.

Lemma render_unfold fuel s : ∀ a,
  renderTreeNode fuel s a = lines_of (selectedNode s) <$> unfoldNode fuel (store s) a.
Proof.
  induction fuel as [|fuel IH]; intros a; simpl; [done|].
  destruct (store s !! a) as [node|]; simpl; [|done].
  rewrite (mapM_fmap_ext _ _ _ _ IH).
  destruct (mapM (unfoldNode fuel (store s)) (children node)) as [ts|]; simpl; [|done].
  by rewrite flat_map_concat_map.
Qed.

Lemma renderTree_unfold fuel s :
  renderTree fuel s =
  (λ ts, map (line_of (selectedNode s)) (forest_nodes ts))
    <$> unfoldForest fuel (store s) (componentTree s).
Proof.
  unfold renderTree, unfoldForest.
  rewrite (mapM_fmap_ext _ _ _ _ (render_unfold fuel s)).
  destruct (mapM _ _) as [ts|]; simpl; [|done]. f_equal.
  unfold forest_nodes. induction ts as [|t ts IH]; simpl; [done|].
  by rewrite map_app, IH, lines_of_nodes.
Qed.

(** ** The found elements are the marked elements below the body *)

Lemma lookup_el_app root r p :
  lookup_el root (r ++ p) = lookup_el root p ≫= λ e, lookup_el e r.
Proof.
  induction r as [|i r IH]; simpl.
  - by destruct (lookup_el root p).
  - rewrite IH. by destruct (lookup_el root p).
Qed.

Lemma accepted_sub e p : ∀ r e',
  lookup_el e r = Some e' → accepted (r ++ p) e' `sublist_of` accepted p e.
Proof.
  induction r as [|i r IH]; intros e' Hr; simpl in *.
  - by injection Hr as ->.
  - destruct (lookup_el e r) as [e''|] eqn:Hr'; simpl in Hr; [|done].
    etrans; [|by apply IH]. rewrite (accepted_eq (r ++ p) e'').
    apply sublist_inserts_l.
    apply (sublist_flat_from (λ j k, accepted (j :: r ++ p) k) 0 _ i e' Hr).
Qed.

Lemma elem_of_accepted e : ∀ p y,
  y ∈ accepted p e ↔
  ∃ r e', y = r ++ p ∧ lookup_el e r = Some e' ∧ marked e' = true.
Proof.
  intros p y. split.
  - revert p y. induction e as [t a s ks IH] using Element_ind'. intros p y.
    rewrite accepted_eq, elem_of_app. intros [Hy|Hy].
    + destruct (marked _) eqn:Hm; [|by apply elem_of_nil in Hy].
      apply list_elem_of_singleton in Hy as ->. by exists [], (El t a s ks).
    + apply elem_of_accepted_below in Hy as (j & k & Hk & Hy). simpl in *.
      rewrite Forall_lookup in IH.
      destruct (IH j k Hk _ _ Hy) as (r & e' & -> & Hr & Hm).
      exists (r ++ [j]), e'. split_and!; [by rewrite <- app_assoc | | done].
      rewrite lookup_el_app. simpl. by rewrite Hk.
  - intros (r & e' & -> & Hr & Hm).
    eapply elem_of_sublist; [|by apply accepted_sub].
    rewrite accepted_eq, Hm. by left.
Qed.

Lemma elem_of_found d y :
  y ∈ findElementsWithSourcePath d (bodyRef d) ↔
  marked_at d y = true ∧ bodyRef d ∈ ancestors y.
Proof.
  split.
  - intros Hy. split; [|by apply found_below_body].
    rewrite found_eq in Hy.
    assert (y ∈ accepted (bodyRef d) (body d)) as Hacc.
    { rewrite accepted_eq. apply elem_of_app. by right. }
    apply elem_of_accepted in Hacc as (r & e' & -> & Hr & Hm).
    unfold marked_at, doc_lookup. rewrite lookup_el_app.
    fold (doc_lookup d (bodyRef d)). rewrite doc_lookup_body. simpl. by rewrite Hr.
  - intros [Hm Hb]. rewrite found_eq.
    pose proof (ancestors_suffix _ _ Hb) as [r ->].
    unfold marked_at, doc_lookup in Hm. rewrite lookup_el_app in Hm.
    fold (doc_lookup d (bodyRef d)) in Hm. rewrite doc_lookup_body in Hm. simpl in Hm.
    destruct (lookup_el (body d) r) as [e'|] eqn:Hr; simpl in Hm; [|done].
    assert (r ++ bodyRef d ∈ accepted (bodyRef d) (body d)) as Hacc.
    { apply elem_of_accepted. eauto. }
    rewrite accepted_eq in Hacc. apply elem_of_app in Hacc as [Hown|]; [|done].
    destruct (marked (body d)); [|by apply elem_of_nil in Hown].
    apply list_elem_of_singleton in Hown. rewrite Hown in Hb.
    by apply ancestors_irrefl in Hb.
Qed.

Lemma ancestorsIn_found d y :
  ancestorsIn (findElementsWithSourcePath d (bodyRef d)) y
  = markedAncestorsBelow d (bodyRef d) y.
Proof.
  unfold ancestorsIn, markedAncestorsBelow. f_equal.
  apply list_filter_iff. intros z. apply elem_of_found.
Qed.

Lemma filter_iff_in {A} (P Q : A → Prop)
    `{!∀ x, Decision (P x), !∀ x, Decision (Q x)} (l : list A) :
  (∀ x, x ∈ l → (P x ↔ Q x)) → filter P l = filter Q l.
Proof.
  induction l as [|x l IH]; intros HPQ; [done|].
  rewrite !filter_cons. rewrite IH by (intros; apply HPQ; by right).
  pose proof (HPQ x (list_elem_of_here _ _)) as Hx.
  destruct (decide (P x)), (decide (Q x)); tauto || done.
Qed.

(** When neither [body] nor [html] carries the marker, every marked
    ancestor of an element below the body is itself below the body. *)
Lemma markedAncestors_below d y :
  bodyRef d ∈ ancestors y →
  marked_at d (bodyRef d) = false → marked_at d [] = false →
  markedAncestorsBelow d (bodyRef d) y = markedAncestors d y.
Proof.
  intros Hb Hbody Hhtml. unfold markedAncestorsBelow, markedAncestors. f_equal.
  apply filter_iff_in. intros z Hz. split; [by intros [? _]|].
  intros Hm. split; [done|].
  apply ancestors_suffix in Hz, Hb.
  destruct (suffix_weak_total _ _ _ Hz Hb) as [Hzb|Hbz].
  - exfalso. apply suffix_ancestors in Hzb as [->|Hzb]; [congruence|].
    unfold bodyRef in Hzb. simpl in Hzb. apply list_elem_of_singleton in Hzb as ->.
    congruence.
  - apply suffix_ancestors in Hbz as [<-|]; [congruence|done].
Qed.

(** ** Parents and roots in the store *)




(** ** Inline styles and the highlight *)

Module CssFacts.
Import Css.

Lemma starts_with_app n a b :
  Str.starts_with n a = true → Str.starts_with n (a +:+ b) = true.
Proof.
  revert a. induction n as [|c n IH]; intros [|c' a]; simpl; try done.
  destruct (Ascii.ascii_dec c c'); [apply IH | done].
Qed.

Lemma includes_app_l n a b :
  Str.includes n a = true → Str.includes n (a +:+ b) = true.
Proof.
  induction a as [|c a IH]; simpl.
  - rewrite orb_false_r. intros H. destruct n; [by destruct b | done].
  - intros [H|H]%orb_true_iff; apply orb_true_iff.
    + left. by apply (starts_with_app n (String c a) b).
    + right. by apply IH.
Qed.

Lemma includes_app_r n a b :
  Str.includes n b = true → Str.includes n (a +:+ b) = true.
Proof.
  intros H. induction a as [|c a IH]; simpl; [done|].
  apply orb_true_iff. by right.
Qed.

Lemma attr_lookup_elem_of name (s : Style) v :
  attr_lookup name s = Some v → (name, v) ∈ s.
Proof.
  induction s as [|[n w] s IH]; simpl; [done|].
  case_decide; [intros [= ->]; subst; by left | right; auto].
Qed.

(** A declaration whose property name contains "outline" makes the
    selector match. *)
Lemma matches_decl (s : Style) n v :
  (n, v) ∈ s → Str.includes "outline" n = true → matches_style_outline s = true.
Proof.
  unfold matches_style_outline. intros Hin Hn.
  induction s as [|[n' v'] s IH]; [by apply elem_of_nil in Hin|].
  apply elem_of_cons in Hin as [[= <- <-]|Hin]; simpl.
  - by apply includes_app_l.
  - do 3 apply includes_app_r. by apply IH.
Qed.

Lemma matches_outline s :
  getPropertyValue "outline" s ≠ "" → matches_style_outline s = true.
Proof.
  unfold getPropertyValue. destruct (attr_lookup "outline" s) as [v|] eqn:Hv; [|done].
  intros _. by eapply matches_decl; [apply attr_lookup_elem_of|].
Qed.

Lemma matches_outlineOffset s :
  getPropertyValue "outline-offset" s ≠ "" → matches_style_outline s = true.
Proof.
  unfold getPropertyValue.
  destruct (attr_lookup "outline-offset" s) as [v|] eqn:Hv; [|done].
  intros _. by eapply matches_decl; [apply attr_lookup_elem_of|].
Qed.

Lemma attr_lookup_removed name names (s : Style) :
  name ∈ names → attr_lookup name (removeProperties names s) = None.
Proof.
  intros Hn. unfold removeProperties. induction s as [|[n v] s IH]; [done|].
  rewrite filter_cons. simpl. case_decide as Hd; [|done]. simpl.
  rewrite decide_False by (intros ->; done). done.
Qed.

Lemma attr_lookup_kept name names (s : Style) :
  name ∉ names →
  attr_lookup name (removeProperties names s) = attr_lookup name s.
Proof.
  intros Hn. unfold removeProperties. induction s as [|[n v] s IH]; [done|].
  rewrite filter_cons. simpl. case_decide as Hd; simpl.
  - by rewrite IH.
  - rewrite decide_False; [done|]. intros ->. first [by apply Hd | by apply Hn].
Qed.

Lemma attr_lookup_app name (a b : Style) :
  attr_lookup name (a ++ b) =
  match attr_lookup name a with Some v => Some v | None => attr_lookup name b end.
Proof.
  induction a as [|[n v] a IH]; simpl; [done|]. by case_decide.
Qed.

Lemma cleared_eq s :
  cleared s = removeProperties ["outline-offset"] (removeProperties outline_family s).
Proof. done. Qed.

Lemma cleared_outline s : getPropertyValue "outline" (cleared s) = "".
Proof.
  unfold getPropertyValue. rewrite cleared_eq.
  rewrite attr_lookup_kept by (by rewrite list_elem_of_singleton).
  rewrite attr_lookup_removed; [done|]. by left.
Qed.

Lemma cleared_outlineOffset s : getPropertyValue "outline-offset" (cleared s) = "".
Proof.
  unfold getPropertyValue. rewrite cleared_eq.
  rewrite attr_lookup_removed; [done|]. by left.
Qed.

Lemma removeProperties_comm a b s :
  removeProperties a (removeProperties b s) = removeProperties b (removeProperties a s).
Proof.
  unfold removeProperties. rewrite !list_filter_filter.
  apply list_filter_iff. intros; tauto.
Qed.

Lemma removeProperties_idemp a s :
  removeProperties a (removeProperties a s) = removeProperties a s.
Proof.
  unfold removeProperties. rewrite list_filter_filter.
  apply list_filter_iff. intros; tauto.
Qed.

Lemma cleared_idemp s : cleared (cleared s) = cleared s.
Proof.
  rewrite !cleared_eq.
  rewrite (removeProperties_comm outline_family ["outline-offset"]).
  by rewrite !removeProperties_idemp.
Qed.

Lemma highlighted_outline s :
  getPropertyValue "outline" (highlighted s) = "2px solid #007acc".
Proof.
  unfold getPropertyValue, highlighted, set_outlineOffset, set_outline.
  rewrite !decide_False by done.
  rewrite attr_lookup_app.
  rewrite attr_lookup_kept by (by rewrite list_elem_of_singleton).
  rewrite attr_lookup_app.
  rewrite attr_lookup_removed; [done|]. by left.
Qed.

Lemma highlighted_outlineOffset s :
  getPropertyValue "outline-offset" (highlighted s) = "2px".
Proof.
  unfold getPropertyValue, highlighted, set_outlineOffset.
  rewrite decide_False by done.
  rewrite attr_lookup_app.
  rewrite attr_lookup_removed; [done|]. by left.
Qed.
End CssFacts.

(** ** Styles in the document *)

Lemma map_styles_eq f p e :
  map_styles f p e =
  El (el_tagName e) (el_attrs e) (f p (el_style e))
     (map_from (λ i k, map_styles f (i :: p) k) 0 (el_children e)).
Proof. by destruct e. Qed.

Lemma documentElement_map_styles f d :
  documentElement (doc_map_styles f d) = map_styles f [] (documentElement d).
Proof.
  unfold documentElement, doc_map_styles. simpl. f_equal.
  by rewrite map_from_app.
Qed.

Lemma lookup_el_map_styles f p0 root : ∀ r,
  lookup_el (map_styles f p0 root) r = map_styles f (r ++ p0) <$> lookup_el root r.
Proof.
  induction r as [|i r IH]; simpl; [done|].
  rewrite IH. destruct (lookup_el root r) as [e|]; simpl; [|done].
  rewrite map_styles_eq. simpl. by rewrite map_from_lookup.
Qed.

Lemma style_at_map_styles f d p :
  style_at (doc_map_styles f d) p = f p <$> style_at d p.
Proof.
  unfold style_at, doc_lookup.
  rewrite documentElement_map_styles, lookup_el_map_styles, app_nil_r.
  destruct (lookup_el _ p) as [e|]; simpl; [|done]. by rewrite map_styles_eq.
Qed.

Lemma style_at_set_style d el g p :
  style_at (set_style d el g) p =
  (if decide (p = el) then g else id) <$> style_at d p.
Proof.
  unfold set_style. rewrite style_at_map_styles.
  destruct (style_at d p); simpl; [|done]. by case_decide.
Qed.

Lemma elements_of_eq p e :
  elements_of p e = (p, e) :: flat_from (λ i k, elements_of (i :: p) k) 0 (el_children e).
Proof. by destruct e. Qed.

Lemma elements_of_sub e p : ∀ r e',
  lookup_el e r = Some e' → elements_of (r ++ p) e' `sublist_of` elements_of p e.
Proof.
  induction r as [|i r IH]; intros e' Hr; simpl in *.
  - by injection Hr as ->.
  - destruct (lookup_el e r) as [e''|] eqn:Hr'; simpl in Hr; [|done].
    etrans; [|by apply IH]. rewrite (elements_of_eq (r ++ p) e'').
    apply sublist_cons.
    apply (sublist_flat_from (λ j k, elements_of (j :: r ++ p) k) 0 _ i e' Hr).
Qed.

Lemma elem_of_elements_of e : ∀ p y e',
  (y, e') ∈ elements_of p e ↔ ∃ r, y = r ++ p ∧ lookup_el e r = Some e'.
Proof.
  intros p y e'. split.
  - revert p. induction e as [t a s ks IH] using Element_ind'. intros p.
    rewrite elements_of_eq, elem_of_cons. intros [[= -> ->]|Hy]; [by exists []|].
    apply elem_of_flat_from in Hy as (j & k & Hk & Hy). simpl in *.
    rewrite Forall_lookup in IH.
    destruct (IH j k Hk _ Hy) as (r & -> & Hr).
    exists (r ++ [j]). split; [by rewrite <- app_assoc|].
    rewrite lookup_el_app. simpl. by rewrite Hk.
  - intros (r & -> & Hr).
    eapply elem_of_sublist; [|by apply elements_of_sub].
    rewrite elements_of_eq. by left.
Qed.

Lemma elem_of_querySelectorAll d p :
  p ∈ querySelectorAll_style_outline d ↔
  ∃ s, style_at d p = Some s ∧ Css.matches_style_outline s = true.
Proof.
  unfold querySelectorAll_style_outline, style_at, doc_lookup.
  rewrite list_elem_of_fmap. split.
  - intros ([y e] & -> & [Hm Hin]%list_elem_of_filter). simpl in Hm. simpl.
    apply elem_of_elements_of in Hin as (r & -> & Hr). rewrite app_nil_r.
    exists (el_style e). by rewrite Hr.
  - intros (s & Hs & Hm).
    destruct (lookup_el (documentElement d) p) as [e|] eqn:He; simpl in Hs; [|done].
    injection Hs as <-. exists (p, e). split; [done|].
    apply list_elem_of_filter. split; [done|].
    apply elem_of_elements_of. exists p. by rewrite app_nil_r.
Qed.

Lemma style_at_clear_fold p l : ∀ d,
  style_at (fold_left
              (λ d' el, set_style (set_style d' el (Css.set_outline "")) el
                                  (Css.set_outlineOffset "")) l d) p
  = (if decide (p ∈ l) then Css.cleared else id) <$> style_at d p.
Proof.
  induction l as [|el l IH]; intros d; simpl.
  - try rewrite decide_False by apply not_elem_of_nil. by destruct (style_at d p).
  - rewrite IH, !style_at_set_style.
    destruct (style_at d p) as [s|]; simpl; [|done]. f_equal.
    destruct (decide (p = el)) as [->|Hne].
    + rewrite (decide_True (P := el ∈ el :: l)) by (by left).
      fold (Css.cleared s). case_decide; [apply CssFacts.cleared_idemp | done].
    + simpl. apply (f_equal (λ g : Style → Style, g s)).
      apply decide_ext. rewrite elem_of_cons. intuition.
Qed.

Lemma style_at_clearHighlights d p :
  style_at (clearHighlights d) p =
  (λ s, if Css.matches_style_outline s then Css.cleared s else s) <$> style_at d p.
Proof.
  unfold clearHighlights. rewrite style_at_clear_fold.
  destruct (style_at d p) as [s|] eqn:Hs; simpl; [|done]. f_equal.
  case_decide as Hin.
  - apply elem_of_querySelectorAll in Hin as (s' & Hs' & Hm).
    rewrite Hs in Hs'. injection Hs' as <-. by rewrite Hm.
  - destruct (Css.matches_style_outline s) eqn:Hm; [|done].
    exfalso. apply Hin, elem_of_querySelectorAll. eauto.
Qed.

(** ** Older objects of the store *)

Lemma unfoldNode_app fuel h k : ∀ a t,
  unfoldNode fuel h a = Some t → unfoldNode fuel (h ++ k) a = Some t.
Proof.
  induction fuel as [|fuel IH]; intros a t; simpl; [done|].
  destruct (h !! a) as [node|] eqn:Ha; simpl; [|done].
  rewrite (lookup_app_l_Some _ _ _ _ Ha). simpl.
  destruct (mapM (unfoldNode fuel h) (children node)) as [ts|] eqn:Hts; simpl; [|done].
  intros [= <-].
  assert (mapM (unfoldNode fuel (h ++ k)) (children node) = Some ts) as ->; [|done].
  apply mapM_Some. apply mapM_Some in Hts.
  eapply Forall2_impl; [exact Hts|]. intros; by apply IH.
Qed.

(** ** Scans *)

Lemma scan_eq s :
  let bt := buildTree (dom s) (store s)
              (findElementsWithSourcePath (dom s) (bodyRef (dom s))) in
  scanComponentTree s =
  {| dom := dom s; store := bt.1; componentTree := bt.2;
     selectedNode := selectedNode s |}.
Proof. unfold scanComponentTree. simpl. by destruct (buildTree _ _ _). Qed.

Lemma scan_store s :
  let L := findElementsWithSourcePath (dom s) (bodyRef (dom s)) in
  store (scanComponentTree s) = linkedStore (dom s) (store s) L (length L).
Proof.
  intros L. rewrite scan_eq. simpl. unfold L.
  by rewrite (buildTree_linked _ _ _ (found_NoDup _) (found_ancestors_first _)).
Qed.

Lemma scan_store_length s :
  length (store (scanComponentTree s))
  = length (store s)
    + length (findElementsWithSourcePath (dom s) (bodyRef (dom s))).
Proof. rewrite scan_store. apply linkedStore_length. Qed.

Lemma scan_unfold s fuel :
  length (findElementsWithSourcePath (dom s) (bodyRef (dom s))) ≤ fuel →
  unfoldForest fuel (store (scanComponentTree s)) (componentTree (scanComponentTree s))
  = Some (expectedForest (dom s) (length (store s))).
Proof. intros Hfuel. rewrite scan_eq. simpl. by apply scan_forest. Qed.

Lemma expectedForest_addrs d base :
  map nt_addr (forest_nodes (expectedForest d base))
  = seq base (length (findElementsWithSourcePath d (bodyRef d))).
Proof.
  rewrite <- (addr_found base _ (found_NoDup d)).
  eapply Forall2_fmap_eq; [apply expectedForest_listing|]. by intros y t (? & _).
Qed.

Lemma expectedForest_elements d base :
  map nt_element (forest_nodes (expectedForest d base))
  = findElementsWithSourcePath d (bodyRef d).
Proof.
  etrans; [|apply map_id].
  eapply Forall2_fmap_eq; [apply expectedForest_listing|]. by intros y t (_ & ? & _).
Qed.

Lemma expected_roots_depth addr c : ∀ dp q t,
  t ∈ expected addr dp q c → nt_depth t = dp.
Proof.
  induction c as [tg a s ks IH] using Element_ind'. intros dp q t.
  rewrite expected_eq. simpl.
  assert (∀ i, t ∈ expected_below addr dp q i ks → nt_depth t = dp) as Hb.
  { intros i (j & k & Hk & Ht)%elem_of_flat_from.
    rewrite Forall_lookup in IH. by eapply IH. }
  destruct (marked _); [|apply Hb].
  by intros ->%list_elem_of_singleton.
Qed.

Lemma shape_expected addr1 addr2 c : ∀ dp q,
  map shape_of (expected addr1 dp q c) = map shape_of (expected addr2 dp q c).
Proof.
  induction c as [tg a s ks IH] using Element_ind'. intros dp q.
  assert (∀ dp i, map shape_of (expected_below addr1 dp q i ks)
                  = map shape_of (expected_below addr2 dp q i ks)) as Hb.
  { clear dp. intros dp i. revert i.
    induction IH as [|k ks Hk _ IHks]; intros i; [done|].
    unfold expected_below in *. simpl. by rewrite !map_app, Hk, IHks. }
  rewrite !expected_eq. simpl. destruct (marked _); [|apply Hb].
  simpl. by rewrite Hb.
Qed.

Lemma shape_expectedForest d base1 base2 :
  map shape_of (expectedForest d base1) = map shape_of (expectedForest d base2).
Proof.
  unfold expectedForest. generalize 0 at 2 4.
  induction (el_children (body d)) as [|k ks IH]; intros i; [done|].
  unfold expected_below in *. simpl. rewrite !map_app, IH. f_equal.
  apply shape_expected.
Qed.


(** * The properties of the scanner and the panel *)

(** C1. For the list of marked elements the walker collects, in document
    order, the forest built by [buildTree] holds exactly one node per
    element: read from the store with enough fuel, the nodes of the forest
    (roots and everything reachable through [children], parents first) are
    the freshly allocated node objects, each once, and their elements are
    the collected list itself, which has no duplicate and consists of the
    marked elements strictly below the body. *)
Theorem buildTree_one_node_per_element (d : Document) (h : Store) (fuel : nat) :
  let L := findElementsWithSourcePath d (bodyRef d) in
  let bt := buildTree d h L in
  length L ≤ fuel →
  ∃ forest,
    unfoldForest fuel bt.1 bt.2 = Some forest ∧
    map nt_element (forest_nodes forest) = L ∧
    map nt_addr (forest_nodes forest) = seq (length h) (length L) ∧
    NoDup L ∧
    ∀ y, y ∈ L ↔ marked_at d y = true ∧ bodyRef d ∈ ancestors y.
Proof.
  intros L bt Hfuel. exists (expectedForest d (length h)). split_and!.
  - by apply scan_forest.
  - apply expectedForest_elements.
  - apply expectedForest_addrs.
  - apply found_NoDup.
  - apply elem_of_found.
Qed.

Lemma buildTree_one_node_per_element_witness :
  length (findElementsWithSourcePath Samples.doc_nested (bodyRef Samples.doc_nested)) ≤ 3 ∧
  ∃ forest,
    unfoldForest 3
      (buildTree Samples.doc_nested []
         (findElementsWithSourcePath Samples.doc_nested (bodyRef Samples.doc_nested))).1
      (buildTree Samples.doc_nested []
         (findElementsWithSourcePath Samples.doc_nested (bodyRef Samples.doc_nested))).2
    = Some forest ∧
    map nt_element (forest_nodes forest)
    = findElementsWithSourcePath Samples.doc_nested (bodyRef Samples.doc_nested).
Proof.
  assert (length (findElementsWithSourcePath Samples.doc_nested
                    (bodyRef Samples.doc_nested)) ≤ 3) as Hfuel.
  { vm_compute. lia. }
  split; [exact Hfuel|].
  destruct (buildTree_one_node_per_element Samples.doc_nested [] 3 Hfuel)
    as (forest & Hf & He & _).
  by exists forest.
Defined.

(** C2, as stated, fails when the body itself carries the marker: the walker
    never returns its root, so the body is a marked strict ancestor that
    has no node and is not counted. *)
Lemma depth_ignores_marked_body :
  unfoldForest 1
    (store (scanComponentTree (initialPanel Samples.doc_marked_body)))
    (componentTree (scanComponentTree (initialPanel Samples.doc_marked_body)))
  = Some [NT 0 [0; 1] "A" "div" 0 []] ∧
  nt_depth (NT 0 [0; 1] "A" "div" 0 []) ≠ markedAncestors Samples.doc_marked_body [0; 1].
Proof. split; [by vm_compute | vm_compute; lia]. Qed.

(** C2, amended. For every node of the forest produced by a scan, [depth]
    is the number of marked elements that are strict ancestors of its
    element and lie strictly below the body, which are the strict ancestors
    found by the walker; every root has depth 0; when neither the body nor
    the [html] element carries the marker, this is the number of all marked
    strict ancestors. *)
Theorem depth_counts_marked_ancestors_below_body (s : Panel) (fuel : nat) :
  let d := dom s in
  let s' := scanComponentTree s in
  length (findElementsWithSourcePath d (bodyRef d)) ≤ fuel →
  ∃ forest,
    unfoldForest fuel (store s') (componentTree s') = Some forest ∧
    Forall (λ t, nt_depth t = 0) forest ∧
    ∀ t, t ∈ forest_nodes forest →
      nt_depth t = markedAncestorsBelow d (bodyRef d) (nt_element t) ∧
      nt_depth t = ancestorsIn (findElementsWithSourcePath d (bodyRef d)) (nt_element t) ∧
      (marked_at d (bodyRef d) = false → marked_at d [] = false →
       nt_depth t = markedAncestors d (nt_element t)).
Proof.
  intros d s' Hfuel. exists (expectedForest d (length (store s))). split_and!.
  - by apply scan_unfold.
  - apply Forall_forall. intros t (j & k & _ & Ht)%elem_of_flat_from.
    by eapply expected_roots_depth.
  - intros t Ht.
    pose proof (expectedForest_listing d (length (store s))) as HF. simpl in HF.
    apply list_elem_of_lookup in Ht as [i Hi].
    destruct (Forall2_lookup_r _ _ _ _ _ HF Hi) as (y & Hy & _ & He & _ & _ & Hd).
    rewrite He, Hd. rewrite <- ancestorsIn_found. split_and!; [done..|].
    intros Hb Hh. rewrite ancestorsIn_found. apply markedAncestors_below; [|done..].
    apply found_below_body. by eapply list_elem_of_lookup_2.
Qed.

Lemma depth_counts_marked_ancestors_below_body_witness :
  length (findElementsWithSourcePath Samples.doc_nested (bodyRef Samples.doc_nested)) ≤ 3 ∧
  ∃ forest,
    unfoldForest 3
      (store (scanComponentTree (initialPanel Samples.doc_nested)))
      (componentTree (scanComponentTree (initialPanel Samples.doc_nested)))
    = Some forest ∧
    Forall (λ t, nt_depth t = 0) forest.
Proof.
  assert (length (findElementsWithSourcePath Samples.doc_nested
                    (bodyRef Samples.doc_nested)) ≤ 3) as Hfuel.
  { vm_compute. lia. }
  split; [exact Hfuel|].
  destruct (depth_counts_marked_ancestors_below_body
              (initialPanel Samples.doc_nested) 3 Hfuel) as (forest & Hf & Hr & _).
  by exists forest.
Defined.

(** C3. For every node of the collected list [L], with element [y]: the
    node that gets it as a child is the node of the nearest strict DOM
    ancestor of [y] that is itself in [L], which is the node
    [findParentNode] returns (unmarked elements in between are walked
    past), and it is put in the root list exactly when no strict ancestor of
    [y] is in [L]. *)
Theorem parent_is_nearest_collected_ancestor (d : Document) (h : Store)
    (i : nat) (y : ERef) :
  let L := findElementsWithSourcePath d (bodyRef d) in
  let bt := buildTree d h L in
  let base := length h in
  L !! i = Some y →
  (∀ j x, L !! j = Some x →
     ((∃ parent, bt.1 !! (base + j) = Some parent ∧ base + i ∈ children parent)
      ↔ nearest_ancestor_in L y x) ∧
     (findParentNode bt.1 y (seq base (length L)) = Some (base + j)
      ↔ nearest_ancestor_in L y x)) ∧
  (base + i ∈ bt.2 ↔ ∀ z, z ∈ ancestors y → z ∉ L) ∧
  (findParentNode bt.1 y (seq base (length L)) = None
   ↔ ∀ z, z ∈ ancestors y → z ∉ L).
Proof.
  intros L bt base Hi.
  apply (linked_parents d h L (found_NoDup d) (found_ancestors_first d) i y Hi).
Qed.

Lemma parent_is_nearest_collected_ancestor_witness :
  findElementsWithSourcePath Samples.doc_nested (bodyRef Samples.doc_nested) !! 2
  = Some [0; 0; 0; 0; 1] ∧
  (findParentNode
     (buildTree Samples.doc_nested []
        (findElementsWithSourcePath Samples.doc_nested (bodyRef Samples.doc_nested))).1
     [0; 0; 0; 0; 1] (seq 0 3) = Some 1
   ↔ nearest_ancestor_in
       (findElementsWithSourcePath Samples.doc_nested (bodyRef Samples.doc_nested))
       [0; 0; 0; 0; 1] [0; 0; 1]).
Proof.
  assert (findElementsWithSourcePath Samples.doc_nested (bodyRef Samples.doc_nested) !! 2
          = Some [0; 0; 0; 0; 1]) as Hi by reflexivity.
  split; [exact Hi|].
  destruct (parent_is_nearest_collected_ancestor Samples.doc_nested [] 2 _ Hi)
    as (Hpar & _).
  exact (proj2 (Hpar 1 [0; 0; 1] eq_refl)).
Defined.

(** C4. Scanning twice with the same DOM gives two forests of the same
    shape (same elements, tag names, source paths and depths, same
    nesting), made of distinct node objects: no node of the first forest
    is a node of the second, and the first forest is still what it was in
    the store after the second scan. *)
Theorem rescan_same_shape_fresh_nodes (s : Panel) (fuel : nat) :
  let s1 := scanComponentTree s in
  let s2 := scanComponentTree s1 in
  length (findElementsWithSourcePath (dom s) (bodyRef (dom s))) ≤ fuel →
  ∃ f1 f2,
    unfoldForest fuel (store s1) (componentTree s1) = Some f1 ∧
    unfoldForest fuel (store s2) (componentTree s2) = Some f2 ∧
    unfoldForest fuel (store s2) (componentTree s1) = Some f1 ∧
    map shape_of f1 = map shape_of f2 ∧
    ∀ t1 t2, t1 ∈ forest_nodes f1 → t2 ∈ forest_nodes f2 →
             nt_addr t1 ≠ nt_addr t2.
Proof.
  intros s1 s2 Hfuel.
  assert (dom s1 = dom s) as Hdom by (unfold s1; by rewrite scan_eq).
  exists (expectedForest (dom s) (length (store s))),
         (expectedForest (dom s) (length (store s1))).
  assert (unfoldForest fuel (store s1) (componentTree s1)
          = Some (expectedForest (dom s) (length (store s)))) as H1
    by (by apply scan_unfold).
  split_and!; [done| | | |].
  - rewrite <- Hdom at 1. apply scan_unfold. by rewrite Hdom.
  - unfold s2. rewrite scan_store. unfold linkedStore, unfoldForest in *.
    apply mapM_Some. apply mapM_Some in H1.
    eapply Forall2_impl; [exact H1|]. intros a t. apply unfoldNode_app.
  - apply shape_expectedForest.
  - intros t1 t2 Ht1 Ht2 Heq.
    apply (list_elem_of_fmap_2 nt_addr) in Ht1, Ht2.
    rewrite expectedForest_addrs in Ht1, Ht2. rewrite <- Heq in Ht2.
    apply elem_of_seq in Ht1, Ht2.
    unfold s1 in Ht2. rewrite scan_store_length in Ht2. lia.
Qed.

Lemma rescan_same_shape_fresh_nodes_witness :
  length (findElementsWithSourcePath Samples.doc_nested (bodyRef Samples.doc_nested)) ≤ 3 ∧
  ∃ f1 f2,
    unfoldForest 3
      (store (scanComponentTree (initialPanel Samples.doc_nested)))
      (componentTree (scanComponentTree (initialPanel Samples.doc_nested)))
    = Some f1 ∧
    unfoldForest 3
      (store (scanComponentTree (scanComponentTree (initialPanel Samples.doc_nested))))
      (componentTree (scanComponentTree (scanComponentTree (initialPanel Samples.doc_nested))))
    = Some f2 ∧
    map shape_of f1 = map shape_of f2.
Proof.
  assert (length (findElementsWithSourcePath Samples.doc_nested
                    (bodyRef Samples.doc_nested)) ≤ 3) as Hfuel.
  { vm_compute. lia. }
  split; [exact Hfuel|].
  destruct (rescan_same_shape_fresh_nodes (initialPanel Samples.doc_nested) 3 Hfuel)
    as (f1 & f2 & H1 & H2 & _ & Hs & _).
  by exists f1, f2.
Defined.

(** C5, as stated, fails: the elements that are cleared are those whose
    [style] attribute text contains "outline", not those whose outline
    property is set. An element styled with [outline-offset] only has an
    empty outline property, is not the selected element, and still loses
    its style when another node is selected. *)
Lemma select_clears_offset_only_element :
  Css.getPropertyValue "outline" [("outline-offset", "4px")] = "" ∧
  style_at (dom (scanComponentTree (initialPanel Samples.doc_offset))) [0; 1]
  = Some [("outline-offset", "4px")] ∧
  element <$> store (scanComponentTree (initialPanel Samples.doc_offset)) !! 1
  = Some [1; 1] ∧
  style_at (dom (selectNode (scanComponentTree (initialPanel Samples.doc_offset)) 1))
           [0; 1]
  = Some [].
Proof. by vm_compute. Qed.

(** C5, amended. [select] sets [selectedNode] to the node and leaves the
    store and the tree alone. In the document, every element whose [style]
    attribute text contains "outline" loses its outline and its outline
    offset, which, the attribute text being the serialised declarations,
    covers every element with a non-empty inline outline or outline offset;
    the style of every other element is unchanged; then the
    node's element gets the outline [2px solid #007acc] and the outline
    offset [2px]. *)
Theorem select_highlights_node (s : Panel) (a : nat) (node : ComponentNode) :
  store s !! a = Some node →
  let s' := selectNode s a in
  selectedNode s' = Some a ∧
  store s' = store s ∧
  componentTree s' = componentTree s ∧
  (∀ p st, style_at (dom s) p = Some st →
     ∃ st',
       style_at (dom s') p = Some st' ∧
       (p ≠ element node → Css.matches_style_outline st = true →
          st' = Css.cleared st ∧
          Css.getPropertyValue "outline" st' = "" ∧
          Css.getPropertyValue "outline-offset" st' = "") ∧
       (p ≠ element node → Css.matches_style_outline st = false → st' = st) ∧
       (p ≠ element node → st' ≠ st → Css.matches_style_outline st = true) ∧
       (Css.getPropertyValue "outline" st ≠ "" ∨
        Css.getPropertyValue "outline-offset" st ≠ "" →
          Css.matches_style_outline st = true) ∧
       (p = element node →
          Css.getPropertyValue "outline" st' = "2px solid #007acc" ∧
          Css.getPropertyValue "outline-offset" st' = "2px")) ∧
  (∀ p, style_at (dom s) p = None → style_at (dom s') p = None).
Proof.
  intros Ha s'. unfold s', selectNode. rewrite Ha. simpl. split_and!; [done..| |].
  - intros p st Hst.
    rewrite !style_at_set_style, style_at_clearHighlights, Hst. simpl.
    eexists. split; [done|]. split_and!.
    + intros Hp Hm. rewrite !decide_False by done. simpl. rewrite Hm.
      split_and!; [done|apply CssFacts.cleared_outline|apply CssFacts.cleared_outlineOffset].
    + intros Hp Hm. rewrite !decide_False by done. simpl. by rewrite Hm.
    + intros Hp. rewrite !decide_False by done. simpl.
      by destruct (Css.matches_style_outline st).
    + intros [H|H]; [by apply CssFacts.matches_outline
                    | by apply CssFacts.matches_outlineOffset].
    + intros Hp. rewrite !decide_True by done.
      split; [apply CssFacts.highlighted_outline | apply CssFacts.highlighted_outlineOffset].
  - intros p Hst.
    by rewrite !style_at_set_style, style_at_clearHighlights, Hst.
Qed.

Lemma select_highlights_node_witness :
  store (scanComponentTree (initialPanel Samples.doc_offset)) !! 0
  = Some {| element := [0; 1]; sourcePath := "A"; tagName := "div";
            children := []; depth := 0 |} ∧
  selectedNode (selectNode (scanComponentTree (initialPanel Samples.doc_offset)) 0)
  = Some 0.
Proof.
  assert (store (scanComponentTree (initialPanel Samples.doc_offset)) !! 0
          = Some {| element := [0; 1]; sourcePath := "A"; tagName := "div";
                    children := []; depth := 0 |}) as Ha by reflexivity.
  split; [exact Ha|].
  exact (proj1 (select_highlights_node _ 0 _ Ha)).
Defined.

(** Every node reference held by the panel points into the store. *)
Lemma reachable_selected_valid s :
  reachable s → ∀ a, selectedNode s = Some a → a < length (store s).
Proof.
  induction 1 as [d|s s' Hs IH Hstep].
  - intros a. by rewrite scan_eq.
  - destruct Hstep as [s|s a Ha|s d'].
    + intros a Hsel. rewrite scan_store_length. rewrite scan_eq in Hsel.
      apply IH in Hsel. lia.
    + unfold selectNode. destruct (store s !! a) as [node|]; [|done].
      simpl. by intros ? [= <-].
    + done.
Qed.

(** C6. After a rescan of any panel state that can arise, no node of the
    new forest is [selectedNode], whatever its source path: the comparison
    [selectedNode === node] is false for each of them, and every line of
    the rendered tree is unselected. Selecting a node and rescanning is one
    such case. *)
Theorem rescan_nothing_selected (s : Panel) (fuel : nat) :
  reachable s →
  let s' := scanComponentTree s in
  length (findElementsWithSourcePath (dom s) (bodyRef (dom s))) ≤ fuel →
  ∃ forest lines,
    unfoldForest fuel (store s') (componentTree s') = Some forest ∧
    (∀ t, t ∈ forest_nodes forest → selectedNode s' ≠ Some (nt_addr t)) ∧
    renderTree fuel s' = Some lines ∧
    length lines = length (findElementsWithSourcePath (dom s) (bodyRef (dom s))) ∧
    Forall (λ l, line_selected l = false) lines.
Proof.
  intros Hreach s' Hfuel.
  pose proof (scan_unfold s fuel Hfuel) as Hunf. fold s' in Hunf.
  assert (∀ t, t ∈ forest_nodes (expectedForest (dom s) (length (store s))) →
               selectedNode s' ≠ Some (nt_addr t)) as Hsel.
  { intros t Ht Heq. unfold s' in Heq. rewrite scan_eq in Heq. simpl in Heq.
    apply (reachable_selected_valid s Hreach) in Heq.
    apply (list_elem_of_fmap_2 nt_addr) in Ht. rewrite expectedForest_addrs in Ht.
    apply elem_of_seq in Ht. lia. }
  eexists _, _. split_and!; [done|done| | |].
  - rewrite renderTree_unfold, Hunf. done.
  - rewrite length_map, <- (length_map nt_addr), expectedForest_addrs.
    apply length_seq.
  - apply Forall_fmap, Forall_forall. intros t Ht. simpl.
    apply bool_decide_eq_false. by apply Hsel.
Qed.

Lemma rescan_nothing_selected_witness :
  reachable (selectNode (scanComponentTree (initialPanel Samples.doc_nested)) 1) ∧
  length (findElementsWithSourcePath Samples.doc_nested (bodyRef Samples.doc_nested)) ≤ 3 ∧
  ∃ lines,
    renderTree 3
      (scanComponentTree
         (selectNode (scanComponentTree (initialPanel Samples.doc_nested)) 1))
    = Some lines ∧
    Forall (λ l, line_selected l = false) lines.
Proof.
  assert (reachable (selectNode (scanComponentTree (initialPanel Samples.doc_nested)) 1))
    as Hreach.
  { eapply reachable_step; [apply reachable_init|].
    apply step_select. vm_compute. lia. }
  assert (length (findElementsWithSourcePath
                    (dom (selectNode (scanComponentTree (initialPanel Samples.doc_nested)) 1))
                    (bodyRef (dom (selectNode (scanComponentTree
                                                 (initialPanel Samples.doc_nested)) 1))))
          ≤ 3) as Hfuel.
  { vm_compute. lia. }
  split; [exact Hreach|]. split; [vm_compute; lia|].
  destruct (rescan_nothing_selected _ 3 Hreach Hfuel)
    as (forest & lines & _ & _ & Hr & _ & Hall).
  by exists lines.
Defined.




(** C8. With no marked element below the body a scan is ordinary
    operation: it allocates nothing, the forest is empty and the rendered
    tree is the empty list of lines, for any fuel. The scan and the
    rendering are total functions; no failure value exists for them to
    return. *)
Theorem scan_without_marked_elements (s : Panel) (fuel : nat) :
  (∀ y, bodyRef (dom s) ∈ ancestors y → marked_at (dom s) y = false) →
  findElementsWithSourcePath (dom s) (bodyRef (dom s)) = [] ∧
  componentTree (scanComponentTree s) = [] ∧
  store (scanComponentTree s) = store s ∧
  unfoldForest fuel (store (scanComponentTree s))
               (componentTree (scanComponentTree s)) = Some [] ∧
  renderTree fuel (scanComponentTree s) = Some [].
Proof.
  intros Hnone.
  assert (findElementsWithSourcePath (dom s) (bodyRef (dom s)) = []) as HL.
  { destruct (findElementsWithSourcePath _ _) as [|y L] eqn:HL; [done|].
    assert (y ∈ findElementsWithSourcePath (dom s) (bodyRef (dom s))) as Hy
      by (rewrite HL; by left).
    apply elem_of_found in Hy as [Hm Hb]. rewrite (Hnone y Hb) in Hm. done. }
  by rewrite scan_eq, HL.
Qed.

Lemma scan_without_marked_elements_witness :
  (∀ y, bodyRef Samples.doc_plain ∈ ancestors y →
        marked_at Samples.doc_plain y = false) ∧
  renderTree 0 (scanComponentTree (initialPanel Samples.doc_plain)) = Some [].
Proof.
  assert (∀ y, bodyRef (dom (initialPanel Samples.doc_plain)) ∈ ancestors y →
               marked_at (dom (initialPanel Samples.doc_plain)) y = false) as Hnone.
  { intros y Hb. destruct (marked_at _ y) eqn:Hm; [|done].
    exfalso. assert (y ∈ findElementsWithSourcePath Samples.doc_plain
                           (bodyRef Samples.doc_plain)) as Hy
      by (by apply elem_of_found).
    by apply elem_of_nil in Hy. }
  split; [exact Hnone|].
  exact (proj2 (proj2 (proj2 (proj2 (scan_without_marked_elements _ 0 Hnone))))).
Defined.

(** C9. A scan reads the DOM and does not write to it: the document after
    [scanComponentTree] is the document before it, element for element. *)
Theorem scan_leaves_dom (s : Panel) :
  dom (scanComponentTree s) = dom s ∧
  ∀ p, doc_lookup (dom (scanComponentTree s)) p = doc_lookup (dom s) p.
Proof. by rewrite scan_eq. Qed.

(** C10. A rescan replaces [componentTree] and nothing else:
    [selectedNode] is the reference it was, the node objects that existed
    before the scan, the selected one among them, are unchanged in the
    store, and the inline style of every element, outline included, is what
    it was. *)
Theorem rescan_changes_tree_only (s : Panel) :
  selectedNode (scanComponentTree s) = selectedNode s ∧
  (∀ a node, store s !! a = Some node →
             store (scanComponentTree s) !! a = Some node) ∧
  (∀ a node, selectedNode s = Some a → store s !! a = Some node →
             selectedNode (scanComponentTree s) = Some a ∧
             store (scanComponentTree s) !! a = Some node) ∧
  dom (scanComponentTree s) = dom s ∧
  ∀ p, style_at (dom (scanComponentTree s)) p = style_at (dom s) p.
Proof.
  assert (∀ a node, store s !! a = Some node →
                    store (scanComponentTree s) !! a = Some node) as Hold.
  { intros a node Ha. rewrite scan_store. unfold linkedStore.
    by apply lookup_app_l_Some. }
  split_and!; [by rewrite scan_eq | done | | by rewrite scan_eq..].
  intros a node Hsel Ha. split; [by rewrite scan_eq | by apply Hold].
Qed.

Lemma rescan_changes_tree_only_witness :
  selectedNode (selectNode (scanComponentTree (initialPanel Samples.doc_offset)) 1)
  = Some 1 ∧
  store (selectNode (scanComponentTree (initialPanel Samples.doc_offset)) 1) !! 1
  = Some {| element := [1; 1]; sourcePath := "B"; tagName := "div";
            children := []; depth := 0 |} ∧
  selectedNode
    (scanComponentTree
       (selectNode (scanComponentTree (initialPanel Samples.doc_offset)) 1))
  = Some 1 ∧
  store
    (scanComponentTree
       (selectNode (scanComponentTree (initialPanel Samples.doc_offset)) 1)) !! 1
  = Some {| element := [1; 1]; sourcePath := "B"; tagName := "div";
            children := []; depth := 0 |}.
Proof.
  assert (selectedNode (selectNode (scanComponentTree
                                      (initialPanel Samples.doc_offset)) 1)
          = Some 1) as Hsel by reflexivity.
  assert (store (selectNode (scanComponentTree
                               (initialPanel Samples.doc_offset)) 1) !! 1
          = Some {| element := [1; 1]; sourcePath := "B"; tagName := "div";
                    children := []; depth := 0 |}) as Ha by reflexivity.
  split; [exact Hsel|]. split; [exact Ha|].
  exact (proj1 (proj2 (proj2 (rescan_changes_tree_only _))) 1 _ Hsel Ha).
Defined.

(** * Further properties of the code *)

(** ** [findParentNode] on any store and any list of nodes *)

Lemma findParentNode_char (h : Store) (el : ERef) (nodes : list nat) :
  (∀ p, findParentNode h el nodes = Some p →
     ∃ i x, nodes !! i = Some p ∧ element <$> h !! p = Some x ∧
            x ∈ ancestors el ∧
            (∀ j q, nodes !! j = Some q → j < i → element <$> h !! q ≠ Some x) ∧
            (∀ q z, q ∈ nodes → element <$> h !! q = Some z → z ∈ ancestors el →
                    z = x ∨ z ∈ ancestors x)) ∧
  (findParentNode h el nodes = None ↔
   ∀ q z, q ∈ nodes → element <$> h !! q = Some z → z ∉ ancestors el).
Proof.
  induction el as [|i up [IHs IHn]]; simpl.
  { split; [done|]. split; [|done]. by intros _ q z _ _ ?%elem_of_nil. }
  destruct (list_find (λ a, element <$> h !! a = Some up) nodes) as [[k p']|] eqn:Hf.
  - apply list_find_Some in Hf as (Hk & Hp' & Hmin). split.
    + intros p [= <-]. exists k, up. split_and!; [done|done|by left| |].
      * intros j q Hj Hlt. by eapply Hmin.
      * intros q z _ _ [->|Hz]%elem_of_cons; auto.
    + split; [done|]. intros Hno. exfalso.
      eapply (Hno p' up); [by eapply list_elem_of_lookup_2 | done | by left].
  - apply list_find_None in Hf. rewrite Forall_forall in Hf. split.
    + intros p Hp. destruct (IHs p Hp) as (k & x & Hk & Hx & Hanc & Hfirst & Hnear).
      exists k, x. split_and!; [done|done|by right|done|].
      intros q z Hq Hz [->|Hzu]%elem_of_cons; [by apply Hf in Hq | by eapply Hnear].
    + rewrite IHn. split.
      * intros Hno q z Hq Hz [->|Hzu]%elem_of_cons; [by apply Hf in Hq | by eapply Hno].
      * intros Hno q z Hq Hz Hzu. eapply Hno; [done..|by right].
Qed.

(** X1. [findParentNode] returns a node of [nodes] whose element is a
    strict ancestor of [el], the nearest one among the elements of the
    nodes of [nodes], and of the nodes with that element the first in
    [nodes]; it returns [null] exactly when no node of [nodes] has a strict
    ancestor of [el] as its element. *)
Theorem findParentNode_first_nearest (h : Store) (el : ERef) (nodes : list nat) :
  (∀ p, findParentNode h el nodes = Some p →
     ∃ i x, nodes !! i = Some p ∧ element <$> h !! p = Some x ∧
            x ∈ ancestors el ∧
            (∀ j q, nodes !! j = Some q → j < i → element <$> h !! q ≠ Some x) ∧
            (∀ q z, q ∈ nodes → element <$> h !! q = Some z → z ∈ ancestors el →
                    z = x ∨ z ∈ ancestors x)) ∧
  (findParentNode h el nodes = None ↔
   ∀ q z, q ∈ nodes → element <$> h !! q = Some z → z ∉ ancestors el).
Proof. apply findParentNode_char. Qed.

Lemma findParentNode_first_nearest_witness :
  findParentNode (store (scanComponentTree (initialPanel Samples.doc_nested)))
                 [0; 0; 0; 0; 1] [0; 1; 2] = Some 1 ∧
  ∃ i x, ([0; 1; 2] : list nat) !! i = Some 1 ∧
         element <$> store (scanComponentTree (initialPanel Samples.doc_nested)) !! 1
         = Some x ∧
         x ∈ ancestors [0; 0; 0; 0; 1].
Proof.
  assert (findParentNode (store (scanComponentTree (initialPanel Samples.doc_nested)))
                         [0; 0; 0; 0; 1] [0; 1; 2] = Some 1) as Hp by reflexivity.
  split; [exact Hp|].
  destruct (proj1 (findParentNode_first_nearest _ _ _) 1 Hp)
    as (i & x & Hi & Hx & Hanc & _).
  by exists i, x.
Defined.

(** ** The walker from any root *)




(** ** [buildTree] on any list of elements *)

Lemma fold_left_inv {A B} (P : A → Prop) (f : A → B → A) (l : list B) st :
  (∀ st x, x ∈ l → P st → P (f st x)) → P st → P (fold_left f l st).
Proof.
  revert st. induction l as [|x l IH]; intros st Hstep Hst; simpl; [done|].
  apply IH.
  - intros st' y Hy. apply Hstep. by right.
  - apply Hstep; [by left | done].
Qed.

Section any_list.
Context (d : Document) (h0 : Store) (els : list ERef).

Local Abbreviation base := (length h0).
Local Abbreviation nodes := (seq (length h0) (length els)).

Lemma allocInv_start : allocInv d h0 els (h0 ++ map (newNode d) els, []).
Proof.
  unfold allocInv. simpl. split_and!.
  - by rewrite length_app, length_map.
  - intros a node Ha. by apply lookup_app_l_Some.
  - intros i el Hi. eexists. split.
    + rewrite lookup_app_r by lia. replace (base + i - base) with i by lia.
      by rewrite list_lookup_fmap, Hi.
    + by split_and!.
  - constructor.
Qed.

Lemma allocInv_step st a :
  a ∈ nodes → allocInv d h0 els st → allocInv d h0 els (linkNode nodes st a).
Proof.
  intros Ha Hinv. destruct st as [h roots].
  destruct Hinv as (Hlen & Hold & Hnew & Hroots). simpl in *.
  apply elem_of_seq in Ha. unfold linkNode.
  destruct (h !! a) as [node|] eqn:Hnode; [|by split_and!].
  destruct (findParentNode h (element node) nodes) as [p|] eqn:Hp.
  - destruct (proj1 (findParentNode_char h (element node) nodes) p Hp)
      as (i & x & Hi & _).
    apply lookup_seq in Hi as [-> Hi]. cbv zeta.
    set (pd := from_option depth 0 _). clearbody pd.
    unfold allocInv. simpl. split_and!.
    + by rewrite !length_alter.
    + intros a0 node0 Ha0. pose proof (lookup_lt_Some _ _ _ Ha0).
      rewrite !list_lookup_alter_ne by lia. by apply Hold.
    + intros i' el Hi'. destruct (Hnew i' el Hi') as (n0 & Hn0 & He & Hs & Ht & Hc).
      assert (Forall (λ c, base ≤ c < base + length els) (children n0 ++ [a])) as Hc'.
      { apply Forall_app. split; [done|]. apply Forall_singleton. lia. }
      destruct (decide (a = base + i')) as [Heq1|Hne1];
        destruct (decide (base + i = base + i')) as [Heq2|Hne2].
      * subst a. rewrite list_lookup_alter_eq, Heq2, list_lookup_alter_eq, Hn0.
        eexists. split; [done|]. unfold set_depth, push_child. simpl. by split_and!.
      * subst a. rewrite list_lookup_alter_eq, list_lookup_alter_ne, Hn0 by done.
        eexists. split; [done|]. unfold set_depth. simpl. by split_and!.
      * rewrite list_lookup_alter_ne, Heq2, list_lookup_alter_eq, Hn0 by done.
        eexists. split; [done|]. unfold push_child. simpl. by split_and!.
      * rewrite !list_lookup_alter_ne, Hn0 by done.
        eexists. split; [done|]. by split_and!.
    + done.
  - unfold allocInv. simpl. split_and!; [done..|].
    apply Forall_app. split; [done|]. apply Forall_singleton. lia.
Qed.

Lemma buildTree_allocInv : allocInv d h0 els (buildTree d h0 els).
Proof.
  unfold buildTree. rewrite alloc_fold. simpl.
  apply fold_left_inv; [apply allocInv_step | apply allocInv_start].
Qed.
End any_list.

(** X3. Whatever list of elements [buildTree] is given, duplicates and
    any order included, it allocates one node per entry of the list, in
    order, after the objects already in the store, which it leaves
    untouched; each new node keeps the element, source path and lower-cased
    tag name it was created with, and every child reference and every root
    it returns is one of the nodes allocated by this call. *)
Theorem buildTree_allocates_fresh_nodes (d : Document) (h : Store) (elements : list ERef) :
  let bt := buildTree d h elements in
  let fresh c := length h ≤ c < length h + length elements in
  length bt.1 = length h + length elements ∧
  (∀ a node, h !! a = Some node → bt.1 !! a = Some node) ∧
  (∀ i el, elements !! i = Some el →
     ∃ node, bt.1 !! (length h + i) = Some node ∧
             element node = el ∧
             sourcePath node = from_option id "" (getAttribute d el marker) ∧
             tagName node = Str.toLowerCase (tagNameOf d el) ∧
             Forall fresh (children node)) ∧
  Forall fresh bt.2.
Proof. apply buildTree_allocInv. Qed.

Lemma buildTree_allocates_fresh_nodes_witness :
  ([[0; 0; 1]; [0; 1]; [0; 0; 1]] : list ERef) !! 1 = Some [0; 1] ∧
  ∃ node,
    (buildTree Samples.doc_nested [] [[0; 0; 1]; [0; 1]; [0; 0; 1]]).1 !! 1 = Some node ∧
    element node = [0; 1].
Proof.
  split; [reflexivity|].
  destruct (proj1 (proj2 (proj2 (buildTree_allocates_fresh_nodes Samples.doc_nested []
                                   [[0; 0; 1]; [0; 1]; [0; 0; 1]])))
                  1 [0; 1] eq_refl) as (node & Hnode & He & _).
  by exists node.
Defined.

(** ** [buildTree] on a duplicate-free list in any order *)

Section any_order.
Context (d : Document) (h0 : Store) (L : list ERef) (Hnd : NoDup L).

Local Abbreviation base := (length h0).
Local Abbreviation nodes := (seq (length h0) (length L)).

Lemma parentedInv_start :
  parentedInv d h0 L 0 (h0 ++ map (newNode d) L, []).
Proof.
  unfold parentedInv. simpl. split_and!; [|intros i y Hi|done].
  - by rewrite length_app, length_map.
  - exists (newNode d y). split; [|done].
    rewrite lookup_app_r by lia. replace (base + i - base) with i by lia.
    by rewrite list_lookup_fmap, Hi.
Qed.

Lemma parentedInv_elements k st i :
  parentedInv d h0 L k st → element <$> st.1 !! (base + i) = L !! i.
Proof.
  intros (Hlen & Hnew & _). destruct (L !! i) as [y|] eqn:Hi.
  - destruct (Hnew i y Hi) as (node & -> & <- & _). done.
  - apply lookup_ge_None in Hi. rewrite (proj2 (lookup_ge_None _ _)); [done|lia].
Qed.

Lemma parentedInv_step k st :
  k < length L → parentedInv d h0 L k st →
  parentedInv d h0 L (S k) (linkNode nodes st (base + k)).
Proof.
  intros Hlt Hinv. pose proof (λ i, parentedInv_elements k st i Hinv) as Hel.
  destruct st as [h roots]. destruct Hinv as (Hlen & Hnew & Hroots). simpl in *.
  destruct (lookup_lt_is_Some_2 L k Hlt) as [y Hk].
  destruct (Hnew k y Hk) as (node & Hnode & Hy & _).
  unfold linkNode. rewrite Hnode, Hy.
  rewrite (findParentNode_spec h0 L Hnd h y Hel).
  assert (addrIn base L y = base + k) as Hay
    by (unfold addrIn; by rewrite (indexIn_lookup L k y)).
  destruct (parentIn L y) as [x|] eqn:Hp; simpl.
  - destruct (parentIn_Some L y x Hp) as [Hx Hxy].
    pose proof (lookup_indexIn L x Hnd Hx) as Hi.
    set (i := indexIn L x) in *. change (addrIn base L x) with (base + i).
    set (pd := from_option depth 0 _). clearbody pd.
    assert (i ≠ k) as Hik.
    { intros ->. assert (x = y) as -> by congruence. by apply ancestors_irrefl in Hxy. }
    unfold parentedInv. simpl. split_and!.
    + by rewrite !length_alter.
    + intros i' y' Hi'. destruct (Hnew i' y' Hi') as (n0 & Hn0 & He & Hc).
      rewrite (take_S_r _ _ _ Hk), filter_app, map_app, <- Hc.
      destruct (decide (i = i')) as [Heq|Hne].
      * subst i'. assert (y' = x) as -> by congruence.
        rewrite filter_cons_True by done. rewrite filter_nil. simpl. rewrite Hay.
        rewrite list_lookup_alter_ne, list_lookup_alter_eq, Hn0 by lia.
        eexists. by split.
      * rewrite filter_cons_False; last first.
        { rewrite Hp. intros [= ->]. apply Hne.
          by eapply NoDup_lookup. }
        rewrite filter_nil, app_nil_r.
        destruct (decide (k = i')) as [<-|Hne'].
        -- rewrite list_lookup_alter_eq, list_lookup_alter_ne, Hn0 by lia.
           eexists. by split.
        -- rewrite !list_lookup_alter_ne, Hn0 by lia. eexists. by split.
    + rewrite (take_S_r _ _ _ Hk), filter_app, map_app.
      rewrite filter_cons_False by (by rewrite Hp). by rewrite filter_nil, app_nil_r.
  - unfold parentedInv. simpl. split_and!; [done| |].
    + intros i' y' Hi'. destruct (Hnew i' y' Hi') as (n0 & Hn0 & He & Hc).
      exists n0. split_and!; [done..|].
      rewrite (take_S_r _ _ _ Hk), filter_app, map_app, <- Hc.
      rewrite filter_cons_False by (by rewrite Hp). by rewrite filter_nil, app_nil_r.
    + rewrite (take_S_r _ _ _ Hk), filter_app, map_app, <- Hroots.
      rewrite filter_cons_True by done. rewrite filter_nil. simpl. by rewrite Hay.
Qed.

Lemma parentedInv_fold k :
  k ≤ length L →
  parentedInv d h0 L k
    (fold_left (linkNode nodes) (seq base k) (h0 ++ map (newNode d) L, [])).
Proof.
  induction k as [|k IH]; intros Hk; [apply parentedInv_start|].
  rewrite seq_S, fold_left_app. simpl. apply parentedInv_step; [lia|]. apply IH. lia.
Qed.

Lemma buildTree_parentedInv :
  parentedInv d h0 L (length L) (buildTree d h0 L).
Proof. unfold buildTree. rewrite alloc_fold. simpl. by apply parentedInv_fold. Qed.
End any_order.

(** X4. Which node gets which child does not depend on the order of the
    list: for any duplicate-free list of elements, in any order, a node is
    pushed to the children of the node of the nearest strict ancestor of
    its element in the list, and to the roots exactly when the list holds
    no strict ancestor of its element. (Document order is needed for
    [depth] only.) *)
Theorem buildTree_parents_any_order (d : Document) (h : Store) (L : list ERef)
    (i : nat) (y : ERef) :
  let bt := buildTree d h L in
  NoDup L → L !! i = Some y →
  (∀ j x, L !! j = Some x →
     ((∃ parent, bt.1 !! (length h + j) = Some parent ∧
                 length h + i ∈ children parent)
      ↔ nearest_ancestor_in L y x)) ∧
  (length h + i ∈ bt.2 ↔ ∀ z, z ∈ ancestors y → z ∉ L).
Proof.
  intros bt Hnd Hi.
  destruct (buildTree_parentedInv d h L Hnd) as (_ & Hnew & Hroots).
  fold bt in Hnew, Hroots. rewrite firstn_all in Hroots. split.
  - intros j x Hj. destruct (Hnew j x Hj) as (node & Hnode & _ & Hc).
    rewrite firstn_all in Hc. rewrite <- parentIn_iff. split.
    + intros (parent & Hparent & Hin). rewrite Hnode in Hparent.
      injection Hparent as <-. rewrite Hc in Hin.
      by apply (elem_of_addr_filter (length h) L (λ z, parentIn L z = Some x) i y Hnd Hi) in Hin.
    + intros Hp. exists node. split; [done|]. rewrite Hc.
      by apply (elem_of_addr_filter (length h) L (λ z, parentIn L z = Some x) i y Hnd Hi).
  - rewrite Hroots.
    rewrite (elem_of_addr_filter (length h) L (λ z, parentIn L z = None) i y Hnd Hi).
    apply parentIn_None.
Qed.

Lemma buildTree_parents_any_order_witness :
  NoDup ([[0; 0; 1]; [0; 1]] : list ERef) ∧
  ([[0; 0; 1]; [0; 1]] : list ERef) !! 0 = Some [0; 0; 1] ∧
  ((∃ parent,
      (buildTree Samples.doc_nested [] [[0; 0; 1]; [0; 1]]).1 !! 1 = Some parent ∧
      0 ∈ children parent)
   ↔ nearest_ancestor_in [[0; 0; 1]; [0; 1]] [0; 0; 1] [0; 1]).
Proof.
  assert (NoDup ([[0; 0; 1]; [0; 1]] : list ERef)) as Hnd.
  { apply NoDup_cons. split; [|apply NoDup_singleton].
    intros Hin. apply list_elem_of_singleton in Hin. discriminate. }
  split; [exact Hnd|]. split; [reflexivity|].
  exact (proj1 (buildTree_parents_any_order Samples.doc_nested []
                  [[0; 0; 1]; [0; 1]] 0 [0; 0; 1] Hnd eq_refl) 1 [0; 1] eq_refl).
Defined.

(** ** Parents and children in the forest of a scan *)

Lemma expected_tops addr c : ∀ dp q,
  map nt_element (expected addr dp q c) = tops q c.
Proof.
  induction c as [tg a s ks IH] using Element_ind'. intros dp q.
  rewrite expected_eq, tops_eq. simpl. destruct (marked _); [done|].
  unfold expected_below, tops_below. generalize 0.
  induction IH as [|k ks Hk _ IHks]; intros i; simpl; [done|].
  by rewrite map_app, Hk, IHks.
Qed.

Lemma expected_below_tops addr dp q i ks :
  map nt_element (expected_below addr dp q i ks) = tops_below q i ks.
Proof.
  unfold expected_below, tops_below. revert i.
  induction ks as [|k ks IH]; intros i; simpl; [done|].
  by rewrite map_app, expected_tops, IH.
Qed.

Section children_facts.
Context (L : list ERef) (Hnd : NoDup L) (addr : ERef → nat).

Lemma child_spec_from dp q ks : ∀ i,
  Forall (λ c, ∀ dp q, covers L q c →
            Forall (child_spec L) (forest_nodes (expected addr dp q c))) ks →
  (∀ j c, ks !! j = Some c → covers L ((i + j) :: q) c) →
  Forall (child_spec L) (forest_nodes (expected_below addr dp q i ks)).
Proof.
  intros i IH. revert i. induction IH as [|c ks Hc _ IHks]; intros i Hpos.
  { constructor. }
  unfold expected_below in *. simpl. rewrite forest_nodes_app. apply Forall_app. split.
  - apply Hc. pose proof (Hpos 0 c eq_refl) as Hcov. by rewrite Nat.add_0_r in Hcov.
  - apply IHks. intros j c' Hj. replace (S i + j) with (i + S j) by lia. by apply Hpos.
Qed.

Lemma child_spec_all c : ∀ dp q,
  covers L q c → Forall (child_spec L) (forest_nodes (expected addr dp q c)).
Proof.
  induction c as [tg a s ks IH] using Element_ind'. intros dp q Hcov.
  assert (∀ j c, ks !! j = Some c → covers L ((0 + j) :: q) c) as Hpos.
  { intros j c Hj. simpl. eapply covers_below_child; [|done].
    by apply covers_children in Hcov. }
  rewrite expected_eq. destruct (marked _) eqn:Hm; simpl in *.
  - rewrite app_nil_r. constructor.
    + split; simpl.
      * rewrite expected_below_tops. symmetry.
        by apply (filter_children L q (El tg a s ks)).
      * apply Forall_forall. intros t (j & k & _ & Ht)%elem_of_flat_from.
        by eapply expected_roots_depth.
    + by apply child_spec_from.
  - by apply child_spec_from.
Qed.
End children_facts.

(** X5. In the forest of a scan, the children of a node are exactly the
    found elements whose nearest found ancestor is the node's element,
    each once and in document order, and every child is one level deeper
    than its parent. *)
Theorem scan_children_nearest_descendants (s : Panel) (fuel : nat) :
  let d := dom s in
  let L := findElementsWithSourcePath d (bodyRef d) in
  let s' := scanComponentTree s in
  length L ≤ fuel →
  ∃ forest,
    unfoldForest fuel (store s') (componentTree s') = Some forest ∧
    ∀ t, t ∈ forest_nodes forest →
      (∀ y, y ∈ map nt_element (nt_children t)
            ↔ y ∈ L ∧ nearest_ancestor_in L y (nt_element t)) ∧
      map nt_element (nt_children t) `sublist_of` L ∧
      NoDup (map nt_element (nt_children t)) ∧
      Forall (λ c, nt_depth c = S (nt_depth t)) (nt_children t).
Proof.
  intros d L s' Hfuel. exists (expectedForest d (length (store s))).
  split; [by apply scan_unfold|].
  intros t Ht.
  assert (child_spec L t) as [Hc Hd].
  { pose proof (found_NoDup d) as Hnd. fold L in Hnd.
    assert (Forall (child_spec L) (forest_nodes (expectedForest d (length (store s)))))
      as Hall.
    { unfold expectedForest. fold L.
      apply (child_spec_from L).
      - apply Forall_forall. intros c _ dp q. by apply child_spec_all.
      - intros j c Hj. simpl. eapply covers_below_child; [apply found_covers|done]. }
    rewrite Forall_forall in Hall. by apply Hall. }
  rewrite Hc. split_and!; [|apply sublist_filter| |done].
  - intros y. rewrite list_elem_of_filter, parentIn_iff. tauto.
  - apply NoDup_filter, found_NoDup.
Qed.

Lemma scan_children_nearest_descendants_witness :
  length (findElementsWithSourcePath Samples.doc_nested (bodyRef Samples.doc_nested)) ≤ 3 ∧
  ∃ forest,
    unfoldForest 3 (store (scanComponentTree (initialPanel Samples.doc_nested)))
                 (componentTree (scanComponentTree (initialPanel Samples.doc_nested)))
    = Some forest ∧
    ∀ t, t ∈ forest_nodes forest →
         Forall (λ c, nt_depth c = S (nt_depth t)) (nt_children t).
Proof.
  assert (length (findElementsWithSourcePath Samples.doc_nested
                    (bodyRef Samples.doc_nested)) ≤ 3) as Hfuel.
  { vm_compute. lia. }
  split; [exact Hfuel|].
  destruct (scan_children_nearest_descendants (initialPanel Samples.doc_nested) 3 Hfuel)
    as (forest & Hf & Hall).
  exists forest. split; [exact Hf|]. intros t Ht. apply (Hall t Ht).
Defined.

(** ** More on inline styles *)

Module CssMore.
Import Css CssFacts.

Lemma filter_all {A} (P : A → Prop) `{!∀ x, Decision (P x)} (l : list A) :
  (∀ x, x ∈ l → P x) → filter P l = l.
Proof.
  induction l as [|x l IH]; intros Hall; [done|].
  rewrite filter_cons_True by (apply Hall; by left).
  f_equal. apply IH. intros; apply Hall. by right.
Qed.

Lemma cleared_other s : cleared s = other_declarations s.
Proof.
  rewrite cleared_eq. unfold removeProperties, other_declarations.
  rewrite list_filter_filter. apply list_filter_iff. intros; tauto.
Qed.

Lemma outline_name_includes n :
  n ∈ outline_family ∨ n ∈ ["outline-offset"] → Str.includes "outline" n = true.
Proof.
  unfold outline_family. rewrite !elem_of_cons, !elem_of_nil.
  intros [[->|[->|[->|[->|[]]]]]|[->|[]]]; reflexivity.
Qed.

(** A style whose text does not contain "outline" has nothing to clear. *)
Lemma cleared_unmatched s : matches_style_outline s = false → cleared s = s.
Proof.
  intros Hm. rewrite cleared_other. apply filter_all. intros [n v] Hin. simpl.
  split; intros Hn;
    (assert (matches_style_outline s = true) as Hm'; [|congruence]);
    eapply matches_decl; eauto; apply outline_name_includes; auto.
Qed.

Lemma cleared_if_matched s :
  (if matches_style_outline s then cleared s else s) = cleared s.
Proof.
  destruct (matches_style_outline s) eqn:Hm; [done|]. by rewrite cleared_unmatched.
Qed.





Lemma other_cleared s : other_declarations (cleared s) = other_declarations s.
Proof. by rewrite <- !cleared_other, cleared_idemp. Qed.


Lemma unmatched_no_outline s :
  matches_style_outline s = false →
  getPropertyValue "outline" s = "" ∧ getPropertyValue "outline-offset" s = "".
Proof.
  intros Hm. split.
  - destruct (decide (getPropertyValue "outline" s = "")) as [|Hne]; [done|].
    apply matches_outline in Hne. congruence.
  - destruct (decide (getPropertyValue "outline-offset" s = "")) as [|Hne]; [done|].
    apply matches_outlineOffset in Hne. congruence.
Qed.
End CssMore.

Lemma style_at_cleared d p :
  style_at (clearHighlights d) p = Css.cleared <$> style_at d p.
Proof.
  rewrite style_at_clearHighlights. destruct (style_at d p) as [st|]; simpl; [|done].
  by rewrite CssMore.cleared_if_matched.
Qed.


(** X6. After [clearHighlights] no element of the document has an inline
    outline or outline offset left; the other declarations of every
    element are kept, in order; and clearing twice is clearing once. *)
Theorem clearHighlights_leaves_no_outline (d : Document) (p : ERef) :
  (∀ st, style_at (clearHighlights d) p = Some st →
         Css.getPropertyValue "outline" st = "" ∧
         Css.getPropertyValue "outline-offset" st = "") ∧
  other_declarations <$> style_at (clearHighlights d) p
  = other_declarations <$> style_at d p ∧
  style_at (clearHighlights (clearHighlights d)) p = style_at (clearHighlights d) p ∧
  (style_at (clearHighlights d) p = None ↔ style_at d p = None).
Proof.
  rewrite !style_at_cleared.
  destruct (style_at d p) as [st|]; simpl; [|by split_and!].
  split_and!; [|by rewrite CssMore.other_cleared|by rewrite CssFacts.cleared_idemp|done].
  intros st' [= <-].
  split; [apply CssFacts.cleared_outline | apply CssFacts.cleared_outlineOffset].
Qed.

Lemma clearHighlights_leaves_no_outline_witness :
  style_at (clearHighlights Samples.doc_offset) [1; 1] = Some [] ∧
  Css.getPropertyValue "outline" [] = "".
Proof.
  assert (style_at (clearHighlights Samples.doc_offset) [1; 1] = Some []) as Hst
    by (by vm_compute).
  split; [exact Hst|].
  exact (proj1 (proj1 (clearHighlights_leaves_no_outline Samples.doc_offset [1; 1])
                  [] Hst)).
Defined.





(** ** Selecting does not change what a scan finds *)

Lemma accepted_map_styles f k : ∀ q, accepted q (map_styles f q k) = accepted q k.
Proof.
  induction k as [tg a s ks IH] using Element_ind'. intros q.
  rewrite map_styles_eq, !accepted_eq. simpl. f_equal.
  unfold accepted_below. generalize 0.
  induction IH as [|k ks Hk _ IHks]; intros i; simpl; [done|].
  by rewrite Hk, IHks.
Qed.

Lemma doc_lookup_map_styles f d p :
  doc_lookup (doc_map_styles f d) p = map_styles f p <$> doc_lookup d p.
Proof.
  unfold doc_lookup.
  by rewrite documentElement_map_styles, lookup_el_map_styles, app_nil_r.
Qed.

Lemma same_markup_refl d : same_markup d d.
Proof. by split_and!. Qed.

Lemma same_markup_trans d1 d2 d3 :
  same_markup d1 d2 → same_markup d2 d3 → same_markup d1 d3.
Proof.
  intros (Hb1 & Ht1 & Ha1 & Hf1) (Hb2 & Ht2 & Ha2 & Hf2). split_and!.
  - congruence.
  - intros p. by rewrite Ht1.
  - intros p. by rewrite Ha1.
  - intros r. by rewrite Hf1.
Qed.

Lemma same_markup_map_styles f d : same_markup (doc_map_styles f d) d.
Proof.
  split_and!.
  - unfold bodyRef, doc_map_styles. simpl. by rewrite map_from_length.
  - intros p. rewrite doc_lookup_map_styles.
    destruct (doc_lookup d p) as [e|]; simpl; [|done]. by rewrite map_styles_eq.
  - intros p. rewrite doc_lookup_map_styles.
    destruct (doc_lookup d p) as [e|]; simpl; [|done]. by rewrite map_styles_eq.
  - intros r. unfold findElementsWithSourcePath. rewrite doc_lookup_map_styles.
    destruct (doc_lookup d r) as [e|]; simpl; [|done].
    rewrite map_styles_eq. simpl. generalize 0.
    induction (el_children e) as [|k ks IH]; intros i; simpl; [done|].
    by rewrite accepted_map_styles, IH.
Qed.

Lemma same_markup_clear_fold l : ∀ d,
  same_markup
    (fold_left (λ d' el, set_style (set_style d' el (Css.set_outline "")) el
                                   (Css.set_outlineOffset "")) l d) d.
Proof.
  induction l as [|el l IH]; intros d; simpl.
  - apply same_markup_refl.
  - eapply same_markup_trans; [apply IH|].
    unfold set_style.
    eapply same_markup_trans; apply same_markup_map_styles.
Qed.

Lemma same_markup_clearHighlights d : same_markup (clearHighlights d) d.
Proof. apply same_markup_clear_fold. Qed.

Lemma same_markup_selectNode s a : same_markup (dom (selectNode s a)) (dom s).
Proof.
  unfold selectNode. destruct (store s !! a) as [node|]; simpl;
    [|apply same_markup_refl].
  unfold set_style.
  eapply same_markup_trans; [apply same_markup_map_styles|].
  eapply same_markup_trans; [apply same_markup_map_styles|].
  apply same_markup_clearHighlights.
Qed.

Lemma same_markup_newNode d1 d2 el :
  same_markup d1 d2 → newNode d1 el = newNode d2 el.
Proof.
  intros (_ & Ht & Ha & _). unfold newNode, getAttribute, tagNameOf. f_equal.
  - specialize (Ha el).
    destruct (doc_lookup d1 el), (doc_lookup d2 el); simpl in *; try done.
    injection Ha as Ha. by rewrite Ha.
  - specialize (Ht el).
    destruct (doc_lookup d1 el), (doc_lookup d2 el); simpl in *; try done.
    injection Ht as Ht. by rewrite Ht.
Qed.

Lemma same_markup_buildTree d1 d2 h L :
  same_markup d1 d2 → buildTree d1 h L = buildTree d2 h L.
Proof.
  intros Hsame. unfold buildTree. rewrite !alloc_fold.
  rewrite (map_ext (newNode d1) (newNode d2)); [done|].
  intros el. by apply same_markup_newNode.
Qed.

(** X9. Selecting a node writes inline styles only: every element keeps
    its tag name and attributes, the walker finds the same elements from
    any root, and a rescan after the selection builds the same nodes and
    the same tree as a rescan before it. *)
Theorem select_keeps_markup (s : Panel) (a : nat) :
  same_markup (dom (selectNode s a)) (dom s) ∧
  store (scanComponentTree (selectNode s a)) = store (scanComponentTree s) ∧
  componentTree (scanComponentTree (selectNode s a))
  = componentTree (scanComponentTree s).
Proof.
  pose proof (same_markup_selectNode s a) as Hsame. split; [done|].
  assert (store (selectNode s a) = store s) as Hst.
  { unfold selectNode. by destruct (store s !! a). }
  rewrite !scan_eq. simpl. rewrite Hst.
  destruct Hsame as (Hb & Ht & Ha & Hf) eqn:E. rewrite Hb, Hf.
  rewrite (same_markup_buildTree _ (dom s)); [done|]. by split_and!.
Qed.

(** ** Rendering in the states the panel goes through *)

Lemma unfoldNode_addr fuel h a t : unfoldNode fuel h a = Some t → nt_addr t = a.
Proof.
  destruct fuel as [|fuel]; simpl; [done|].
  destruct (h !! a) as [node|]; simpl; [|done].
  destruct (mapM _ _) as [ts|]; simpl; [|done]. by intros [= <-].
Qed.

Lemma unfoldNode_reads fuel h : ∀ a t,
  unfoldNode fuel h a = Some t → Forall (reads h) (nodes_of t).
Proof.
  induction fuel as [|fuel IH]; intros a t; simpl; [done|].
  destruct (h !! a) as [node|] eqn:Ha; simpl; [|done].
  destruct (mapM (unfoldNode fuel h) (children node)) as [ts|] eqn:Hts; simpl; [|done].
  intros [= <-]. simpl. apply mapM_Some_1 in Hts. constructor.
  - exists node. simpl. split_and!; [done..|].
    clear Ha. induction Hts as [|c t cs ts Hc _ IHts]; simpl; [done|].
    by rewrite (unfoldNode_addr _ _ _ _ Hc), <- IHts.
  - clear Ha. induction Hts as [|c t cs ts Hc _ IHts]; simpl; [constructor|].
    apply Forall_app. split; [by eapply IH | done].
Qed.

Lemma unfoldForest_reads fuel h roots ts :
  unfoldForest fuel h roots = Some ts → Forall (reads h) (forest_nodes ts).
Proof.
  intros Hts%mapM_Some_1. unfold forest_nodes.
  induction Hts as [|c t cs ts Hc _ IHts]; simpl; [constructor|].
  apply Forall_app. split; [by eapply unfoldNode_reads | done].
Qed.

(** In every state the panel goes through, the store and the tree are
    those of the latest scan. *)
Lemma reachable_latest_scan s :
  reachable s →
  ∃ s0, store s = store (scanComponentTree s0) ∧
        componentTree s = componentTree (scanComponentTree s0).
Proof.
  induction 1 as [d|s s' Hs IH Hstep]; [by eexists|].
  destruct Hstep as [s|s a Ha|s d']; [by eexists| |done].
  destruct IH as (s0 & Hst & Hct). exists s0.
  unfold selectNode. by destruct (store s !! a).
Qed.

Lemma NoDup_fmap_inj_on {A B} (f : A → B) (l : list A) x y :
  NoDup (map f l) → x ∈ l → y ∈ l → f x = f y → x = y.
Proof.
  induction l as [|z l IH]; simpl; [by intros _ ?%elem_of_nil|].
  intros [Hz Hnd]%NoDup_cons [->|Hx]%elem_of_cons [->|Hy]%elem_of_cons Hf; auto.
  - exfalso. apply Hz. rewrite Hf. by apply list_elem_of_fmap_2.
  - exfalso. apply Hz. rewrite <- Hf. by apply list_elem_of_fmap_2.
Qed.

(** X10. In every state the panel goes through (scans, clicks on lines,
    changes of the page in any order) the tree renders: with fuel for the
    elements of the latest scan, [renderTree] returns its lines; each line
    stands for a different node object of the store, a line is shown
    selected exactly when its node is [selectedNode], and so at most one
    line is shown selected. *)
Theorem reachable_tree_renders (s : Panel) :
  reachable s →
  ∃ (n : nat) (lines : list TreeLine),
    (∀ fuel, n ≤ fuel → renderTree fuel s = Some lines) ∧
    length lines = n ∧
    NoDup (map line_click lines) ∧
    Forall (λ l, line_click l < length (store s)) lines ∧
    (∀ l, l ∈ lines →
          (line_selected l = true ↔ selectedNode s = Some (line_click l))) ∧
    (∀ l1 l2, l1 ∈ lines → l2 ∈ lines →
              line_selected l1 = true → line_selected l2 = true → l1 = l2).
Proof.
  intros Hreach. destruct (reachable_latest_scan s Hreach) as (s0 & Hst & Hct).
  set (L := findElementsWithSourcePath (dom s0) (bodyRef (dom s0))).
  set (forest := expectedForest (dom s0) (length (store s0))).
  assert (map line_click (map (line_of (selectedNode s)) (forest_nodes forest))
          = seq (length (store s0)) (length L)) as Hclick.
  { rewrite map_map. simpl. apply expectedForest_addrs. }
  assert (∀ l, l ∈ map (line_of (selectedNode s)) (forest_nodes forest) →
               (line_selected l = true ↔ selectedNode s = Some (line_click l))) as Hsel.
  { intros l (t & -> & _)%list_elem_of_fmap. simpl. apply bool_decide_eq_true. }
  exists (length L), (map (line_of (selectedNode s)) (forest_nodes forest)).
  split_and!.
  - intros fuel Hfuel. rewrite renderTree_unfold, Hst, Hct.
    by rewrite (scan_unfold s0 fuel Hfuel).
  - rewrite length_map, <- (length_map nt_addr). unfold forest.
    rewrite expectedForest_addrs. apply length_seq.
  - rewrite Hclick. apply NoDup_seq.
  - apply Forall_forall. intros l Hl.
    apply (list_elem_of_fmap_2 line_click) in Hl.
    change (line_click l ∈ map line_click (map (line_of (selectedNode s)) (forest_nodes forest))) in Hl.
    rewrite Hclick in Hl.
    apply elem_of_seq in Hl. rewrite Hst, scan_store_length. fold L. lia.
  - done.
  - intros l1 l2 Hl1 Hl2 H1 H2.
    apply (NoDup_fmap_inj_on line_click
             (map (line_of (selectedNode s)) (forest_nodes forest)) l1 l2); [|done..|].
    + rewrite Hclick. apply NoDup_seq.
    + apply Hsel in H1, H2; [|done..]. congruence.
Qed.

Lemma reachable_tree_renders_witness :
  reachable (selectNode (scanComponentTree (initialPanel Samples.doc_nested)) 1) ∧
  ∃ (n : nat) (lines : list TreeLine),
    (∀ fuel, n ≤ fuel →
       renderTree fuel
         (selectNode (scanComponentTree (initialPanel Samples.doc_nested)) 1)
       = Some lines) ∧
    length lines = n.
Proof.
  assert (reachable (selectNode (scanComponentTree (initialPanel Samples.doc_nested)) 1))
    as Hreach.
  { eapply reachable_step; [apply reachable_init|].
    apply step_select. vm_compute. lia. }
  split; [exact Hreach|].
  destruct (reachable_tree_renders _ Hreach) as (n & lines & Hr & Hn & _).
  by exists n, lines.
Defined.

(** X11. Clicking a line of the rendered tree selects its node and nothing
    else: the tree renders again with the same lines (same nodes, tag
    names, source paths and indentation), and a line is shown selected
    exactly when it stands for the node of the clicked line. *)
Theorem click_selects_clicked_line (s : Panel) (fuel : nat)
    (lines : list TreeLine) (l : TreeLine) :
  renderTree fuel s = Some lines → l ∈ lines →
  selectedNode (clickLine s l) = Some (line_click l) ∧
  ∃ lines',
    renderTree fuel (clickLine s l) = Some lines' ∧
    Forall2 (λ l0 l',
               line_click l' = line_click l0 ∧
               line_tagName l' = line_tagName l0 ∧
               line_sourcePath l' = line_sourcePath l0 ∧
               line_indent l' = line_indent l0 ∧
               (line_selected l' = true ↔ line_click l0 = line_click l))
            lines lines'.
Proof.
  rewrite renderTree_unfold.
  destruct (unfoldForest fuel (store s) (componentTree s)) as [ts|] eqn:Hts;
    simpl; [|done].
  intros [= <-] (t & -> & Ht)%list_elem_of_fmap. simpl.
  pose proof (unfoldForest_reads _ _ _ _ Hts) as Hall.
  rewrite Forall_forall in Hall. destruct (Hall t Ht) as (node & Hnode & _).
  unfold clickLine. simpl.
  assert (selectNode s (nt_addr t)
          = {| dom := dom (selectNode s (nt_addr t)); store := store s;
               componentTree := componentTree s;
               selectedNode := Some (nt_addr t) |}) as Heq.
  { unfold selectNode. by rewrite Hnode. }
  split; [by rewrite Heq|].
  eexists. split.
  - rewrite renderTree_unfold, Heq. simpl. by rewrite Hts.
  - apply Forall2_fmap, Forall_Forall2_diag, Forall_forall. intros t' _. simpl.
    split_and!; [done..|].
    rewrite bool_decide_eq_true. split; congruence.
Qed.

Lemma click_selects_clicked_line_witness :
  renderTree 3 (scanComponentTree (initialPanel Samples.doc_nested))
  = Some [mkTreeLine false "" "div" "A" 0; mkTreeLine false "  " "span" "B" 1;
          mkTreeLine false "    " "b" "C" 2] ∧
  selectedNode
    (clickLine (scanComponentTree (initialPanel Samples.doc_nested))
               (mkTreeLine false "  " "span" "B" 1))
  = Some 1.
Proof.
  assert (renderTree 3 (scanComponentTree (initialPanel Samples.doc_nested))
          = Some [mkTreeLine false "" "div" "A" 0; mkTreeLine false "  " "span" "B" 1;
                  mkTreeLine false "    " "b" "C" 2]) as Hr by (by vm_compute).
  split; [exact Hr|].
  refine (proj1 (click_selects_clicked_line _ 3 _ (mkTreeLine false "  " "span" "B" 1)
                   Hr _)).
  right. left.
Defined.

(** ** The detail panel *)

Section detail_panel.
Context {Coord : Type}.
Context (getBoundingClientRect : Document → ERef → DOMRect Coord).
Context (Math_round : Coord → Z).

Local Abbreviation info := (renderSelectedNodeInfo getBoundingClientRect Math_round).

(** X12. Clicking a line of the rendered tree makes the detail panel
    appear with that line's tag name and source path, the number of
    children of its node, and the rounded rectangle of its element as laid
    out after the click. *)
Theorem click_shows_line_details (s : Panel) (fuel : nat)
    (lines : list TreeLine) (l : TreeLine) :
  renderTree fuel s = Some lines → l ∈ lines →
  ∃ node,
    store s !! line_click l = Some node ∧
    tagName node = line_tagName l ∧
    sourcePath node = line_sourcePath l ∧
    info (clickLine s l)
    = Some {| info_tag := line_tagName l;
              info_sourcePath := line_sourcePath l;
              info_left :=
                Math_round (rect_left (getBoundingClientRect (dom (clickLine s l))
                                                             (element node)));
              info_top :=
                Math_round (rect_top (getBoundingClientRect (dom (clickLine s l))
                                                            (element node)));
              info_width :=
                Math_round (rect_width (getBoundingClientRect (dom (clickLine s l))
                                                              (element node)));
              info_height :=
                Math_round (rect_height (getBoundingClientRect (dom (clickLine s l))
                                                               (element node)));
              info_children := length (children node) |}.
Proof.
  rewrite renderTree_unfold.
  destruct (unfoldForest fuel (store s) (componentTree s)) as [ts|] eqn:Hts;
    simpl; [|done].
  intros [= <-] (t & -> & Ht)%list_elem_of_fmap. simpl.
  pose proof (unfoldForest_reads _ _ _ _ Hts) as Hall.
  rewrite Forall_forall in Hall.
  destruct (Hall t Ht) as (node & Hnode & _ & Hsp & Htn & _).
  exists node. split_and!; [done..|].
  unfold renderSelectedNodeInfo, clickLine. simpl.
  assert (selectedNode (selectNode s (nt_addr t)) = Some (nt_addr t)) as ->
    by (unfold selectNode; by rewrite Hnode).
  assert (store (selectNode s (nt_addr t)) = store s) as ->
    by (unfold selectNode; by rewrite Hnode).
  rewrite Hnode. simpl. by rewrite Hsp, Htn.
Qed.

(** X13. In every state the panel goes through, the detail panel is shown
    exactly when a node is selected, and a rescan leaves it as it is: it
    goes on describing the node selected before the rescan. *)
Theorem detail_panel_survives_rescan (s : Panel) :
  reachable s →
  (is_Some (info s) ↔ is_Some (selectedNode s)) ∧
  info (scanComponentTree s) = info s.
Proof.
  intros Hreach. pose proof (reachable_selected_valid s Hreach) as Hvalid.
  unfold renderSelectedNodeInfo.
  destruct (selectedNode s) as [a|] eqn:Hsel; last first.
  { rewrite scan_eq. simpl. rewrite Hsel. split; [|done]. by split; intros [? [=]]. }
  destruct (lookup_lt_is_Some_2 _ _ (Hvalid a eq_refl)) as [node Hnode].
  rewrite Hnode. simpl. split; [by split; eauto|].
  assert (store (scanComponentTree s) !! a = Some node) as Hnode'.
  { rewrite scan_store. unfold linkedStore. by apply lookup_app_l_Some. }
  rewrite scan_eq in Hnode' |- *. simpl in *. by rewrite Hsel, Hnode'.
Qed.
End detail_panel.

Lemma click_shows_line_details_witness :
  renderTree 3 (scanComponentTree (initialPanel Samples.doc_nested))
  = Some [mkTreeLine false "" "div" "A" 0; mkTreeLine false "  " "span" "B" 1;
          mkTreeLine false "    " "b" "C" 2] ∧
  ∃ node,
    store (scanComponentTree (initialPanel Samples.doc_nested)) !! 1 = Some node ∧
    tagName node = "span".
Proof.
  assert (renderTree 3 (scanComponentTree (initialPanel Samples.doc_nested))
          = Some [mkTreeLine false "" "div" "A" 0; mkTreeLine false "  " "span" "B" 1;
                  mkTreeLine false "    " "b" "C" 2]) as Hr by (by vm_compute).
  split; [exact Hr|].
  assert (mkTreeLine false "  " "span" "B" 1
          ∈ [mkTreeLine false "" "div" "A" 0; mkTreeLine false "  " "span" "B" 1;
             mkTreeLine false "    " "b" "C" 2]) as Hin by (right; left).
  destruct (click_shows_line_details
              (λ _ _, mkDOMRect nat 0 0 0 0) Z.of_nat _ 3 _ _ Hr Hin)
    as (node & Hnode & Htn & _).
  by exists node.
Defined.

Lemma detail_panel_survives_rescan_witness :
  reachable (selectNode (scanComponentTree (initialPanel Samples.doc_nested)) 1) ∧
  renderSelectedNodeInfo (λ _ _, mkDOMRect nat 0 0 0 0) Z.of_nat
    (scanComponentTree
       (selectNode (scanComponentTree (initialPanel Samples.doc_nested)) 1))
  = renderSelectedNodeInfo (λ _ _, mkDOMRect nat 0 0 0 0) Z.of_nat
      (selectNode (scanComponentTree (initialPanel Samples.doc_nested)) 1).
Proof.
  assert (reachable (selectNode (scanComponentTree (initialPanel Samples.doc_nested)) 1))
    as Hreach.
  { eapply reachable_step; [apply reachable_init|].
    apply step_select. vm_compute. lia. }
  split; [exact Hreach|].
  exact (proj2 (detail_panel_survives_rescan _ _ _ Hreach)).
Defined.

(** ** The mutation observer *)

Lemma interested_iff root r :
  interested root observerOptions r = true ↔ markup_change root r.
Proof.
  unfold interested, observerOptions, markup_change. simpl.
  destruct r as [target|target name]; simpl.
  - rewrite andb_true_r, orb_true_iff, !bool_decide_eq_true. split.
    + intros Hs. exists target. split; [by left | done].
    + intros (t & [[= <-]|[=]] & Hs). done.
  - rewrite andb_true_r, andb_true_iff, orb_true_iff, !bool_decide_eq_true.
    rewrite list_elem_of_singleton. split.
    + intros [Hs ->]. exists target. split; [by right | done].
    + intros (t & [[=]|[= <- ->]] & Hs). done.
Qed.

Lemma onMutations_scan s records :
  Exists (markup_change (bodyRef (dom s))) records →
  onMutations s records = scanComponentTree s.
Proof.
  intros (r & Hr & Hm)%Exists_exists. unfold onMutations.
  destruct (filter _ records) as [|r' rs] eqn:Hf; [|done].
  exfalso. assert (r ∈ filter (λ r, interested (bodyRef (dom s)) observerOptions r = true)
                        records) as Hin.
  { apply list_elem_of_filter. split; [by apply interested_iff | done]. }
  rewrite Hf in Hin. by apply elem_of_nil in Hin.
Qed.

Lemma onMutations_skip s records :
  Forall (λ r, ¬ markup_change (bodyRef (dom s)) r) records →
  onMutations s records = s.
Proof.
  intros Hall. unfold onMutations. rewrite filter_nil_not; [done|].
  rewrite Forall_forall in Hall. intros r Hr Hi. apply (Hall r Hr).
  by apply interested_iff.
Qed.

(** X14. The observer set up by [connectedCallback] rescans on a batch of
    mutations exactly when the batch holds a child list change, or a change
    of the [data-source-path] attribute, at the body or below it; any other
    batch leaves the panel as it is. The style writes of [selectNode] are
    such a batch, so highlighting a node does not make the panel rescan and
    lose the selection it has just made. *)
Theorem observer_rescans_on_markup_changes (s : Panel) (records : list MutationRecord) :
  (Exists (markup_change (bodyRef (dom s))) records →
   onMutations s records = scanComponentTree s) ∧
  (Forall (λ r, ¬ markup_change (bodyRef (dom s)) r) records →
   onMutations s records = s) ∧
  ∀ a, onMutations (selectNode s a) (selectNode_records s a) = selectNode s a.
Proof.
  split_and!; [apply onMutations_scan | apply onMutations_skip |].
  intros a. apply onMutations_skip. apply Forall_forall. intros r Hr.
  assert (∃ el, r = MutAttributes el "style") as [el ->].
  { unfold selectNode_records in Hr. destruct (store s !! a) as [node|];
      [|by apply elem_of_nil in Hr].
    apply elem_of_app in Hr as [Hr|Hr].
    - apply list_elem_of_In, in_flat_map in Hr as (el & _ & Hr).
      apply list_elem_of_In in Hr. rewrite !elem_of_cons, elem_of_nil in Hr.
      exists el. by destruct Hr as [->|[->|[]]].
    - rewrite !elem_of_cons, elem_of_nil in Hr. exists (element node).
      by destruct Hr as [->|[->|[]]]. }
  by intros (t & [[=]|[=]] & _).
Qed.

Lemma observer_rescans_on_markup_changes_witness :
  Exists (markup_change (bodyRef Samples.doc_nested)) [MutChildList [0; 1]] ∧
  onMutations (initialPanel Samples.doc_nested) [MutChildList [0; 1]]
  = scanComponentTree (initialPanel Samples.doc_nested).
Proof.
  assert (Exists (markup_change (bodyRef (dom (initialPanel Samples.doc_nested))))
                 [MutChildList [0; 1]]) as Hex.
  { apply Exists_cons_hd. exists [0; 1]. split; [by left|]. right. by left. }
  split; [exact Hex|].
  exact (proj1 (observer_rescans_on_markup_changes _ _) Hex).
Defined.
